(** * Quiz functions and training glue of the AI-for-Trading notebooks

    The notebooks under [1. Quantitative-Trading/Lesson8_Momentum-Trading]
    define two small table functions, [generate_positions] and
    [date_top_industries]; the deep-learning notebooks contain a training
    loop and a checkpoint save/load round trip.  This file embeds them and
    proves the properties stated about them.

    Part I holds the definitions, Part II the lemmas and theorems. *)

From Stdlib Require Import ZArith QArith Qcanon Lia.
From Stdlib Require Import Sorting.Sorted.
From stdpp Require Import base numbers option list sorting strings pretty gmap sets.

Local Open Scope Z_scope.

(** * Part I: definitions *)

(** ** Python values that raise

    A call returns a value or raises; [eff S A] is a computation on a
    mutable state [S] that does either and leaves a state behind. *)

Module Python.

Inductive exn : Type :=
| KeyError (key : string)
| TypeError
| ZeroDivisionError
| FileNotFoundError (path : string)
| RuntimeError (missing unexpected mismatched : list string).

Inductive result (A : Type) : Type :=
| Ok (a : A)
| Raise (e : exn).
Arguments Ok {A} a.
Arguments Raise {A} e.

#[export] Instance result_ret : MRet result := λ A a, Ok a.
#[export] Instance result_bind : MBind result := λ A B f m,
  match m with
  | Ok a => f a
  | Raise e => Raise e
  end.

Definition eff (S A : Type) : Type := S → S * result A.

#[export] Instance eff_ret {S} : MRet (eff S) := λ A a s, (s, Ok a).
#[export] Instance eff_bind {S} : MBind (eff S) := λ A B f m s,
  match m s with
  | (s', Ok a) => f a s'
  | (s', Raise e) => (s', Raise e)
  end.

Definition raise {S A} (e : exn) : eff S A := λ s, (s, Raise e).

(** [for x in xs: acc = body(acc, x)] *)
Fixpoint for_each {S A B} (body : B → A → eff S B) (xs : list A) (acc : B) : eff S B :=
  match xs with
  | [] => mret acc
  | x :: xs' => acc' ← body acc x; for_each body xs' acc'
  end.

End Python.

Import Python.

(** ** Tables

    A price is a finite number.  Every finite [float64] (and every [int64])
    is a rational, and two such numbers compare as the rationals do, so a
    price cell is a canonical rational [Qc]. *)

Module Pandas.

Abbreviation label := string.

(** A [DataFrame]: the index (row labels, here dates), the columns
    (here tickers) and the rows of cells. *)
Record DataFrame (A : Type) : Type := mkDataFrame {
  df_index : list label;
  df_columns : list label;
  df_values : list (list A)
}.
Arguments mkDataFrame {A} _ _ _.
Arguments df_index {A} _.
Arguments df_columns {A} _.
Arguments df_values {A} _.

(** A [Series]: labelled values, in order. *)
Abbreviation Series A := (list (label * A)).

(** Elementwise application, labels kept: the shape of every
    comparison, cast and scalar product on a frame. *)
Definition df_map {A B} (f : A → B) (df : DataFrame A) : DataFrame B :=
  mkDataFrame (df_index df) (df_columns df) (fmap (M := list) f <$> df_values df).

(** [df > c] and [df < c] for a scalar [c]. *)
Definition df_gt (df : DataFrame Qc) (c : Qc) : DataFrame bool :=
  df_map (λ p, bool_decide (c < p)%Qc) df.

Definition df_lt (df : DataFrame Qc) (c : Qc) : DataFrame bool :=
  df_map (λ p, bool_decide (p < c)%Qc) df.

(** [int] is [int64]: arithmetic wraps around. *)
Definition wrap64 (z : Z) : Z := (z + 2 ^ 63) mod 2 ^ 64 - 2 ^ 63.

(** [df.astype(int)] on a boolean frame. *)
Definition astype_int (df : DataFrame bool) : DataFrame Z :=
  df_map (λ b : bool, if b then 1 else 0) df.

(** [k * df] for an integer scalar [k]. *)
Definition df_rmul (k : Z) (df : DataFrame Z) : DataFrame Z :=
  df_map (λ z, wrap64 (k * z)) df.

(** [a + b].  Addition aligns the operands on their labels; both operands
    below are derived from one frame and carry its labels, for which the
    alignment is the identity and the sum is positional. *)
Definition df_add (a b : DataFrame Z) : DataFrame Z :=
  mkDataFrame (df_index a) (df_columns a)
    (zip_with (zip_with (λ x y, wrap64 (x + y))) (df_values a) (df_values b)).

(** The cell in row [i], column [j] (by position). *)
Definition df_at {A} (df : DataFrame A) (i j : nat) : option A :=
  df_values df !! i ≫= λ row, row !! j.

(** What [df.loc[key]] selects: one row as a Series over the columns, or,
    when several rows carry the label, the sub-frame of those rows. *)
Inductive selection (A : Type) : Type :=
| SelRow (s : Series A)
| SelFrame (df : DataFrame A).
Arguments SelRow {A} s.
Arguments SelFrame {A} df.

(** [df.loc[key]]; an absent label raises [KeyError]. *)
Definition df_loc {A} (df : DataFrame A) (key : label) : result (selection A) :=
  match filter (λ r, r.1 = key) (zip (df_index df) (df_values df)) with
  | [] => Raise (KeyError key)
  | [r] => Ok (SelRow (zip (df_columns df) r.2))
  | rs => Ok (SelFrame (mkDataFrame rs.*1 (df_columns df) rs.*2))
  end.

(** Stable insertion into a list kept in decreasing order of value: the
    new element goes in front of the first element that is not larger. *)
Fixpoint insert_desc (x : nat * Qc) (l : list (nat * Qc)) : list (nat * Qc) :=
  match l with
  | [] => [x]
  | y :: l' =>
      if decide (y.2 ≤ x.2)%Qc then x :: y :: l' else y :: insert_desc x l'
  end.

(** The positions of [vs] in decreasing order of value, positions of equal
    values in increasing order: a stable argsort of the negated values. *)
Definition argsort_desc (vs : list Qc) : list nat :=
  (foldr insert_desc [] (zip (seq 0 (length vs)) vs)).*1.

(** [s.iloc[inds]]: the entries at the given positions, in that order. *)
Definition iloc {A} (s : Series A) (inds : list nat) : Series A :=
  omap (λ i, s !! i) inds.

(** [Series.nlargest(n)] with the default [keep='first']: the first [n]
    positions of the stable decreasing argsort. *)
Definition nlargest (n : nat) (s : Series Qc) : Series Qc :=
  iloc s (take n (argsort_desc s.*2)).

(** The call [x.nlargest(n)] on what [loc] selected: [Series.nlargest] on
    a row; on a frame, [DataFrame.nlargest] lacks its required [columns]
    argument and raises [TypeError]. *)
Definition sel_nlargest (x : selection Qc) (n : nat) : result (Series Qc) :=
  match x with
  | SelRow s => Ok (nlargest n s)
  | SelFrame _ => Raise TypeError
  end.

(** [s.index] *)
Definition index {A} (s : Series A) : list label := s.*1.

(** The sector Series is used as a keyed mapping from ticker to sector
    name.  [sector.loc[labels]] looks each label up, in order; a label
    that has no entry raises [KeyError]. *)
Fixpoint series_loc (sector : gmap label string) (labels : list label)
  : result (Series string) :=
  match labels with
  | [] => Ok []
  | l :: labels' =>
      match sector !! l with
      | None => Raise (KeyError l)
      | Some v => rest ← series_loc sector labels'; Ok ((l, v) :: rest)
      end
  end.

(** [set(s)]: iterating a Series yields its values. *)
Definition to_set (s : Series string) : gset string := list_to_set s.*2.

End Pandas.

Import Pandas.

(** ** [generate_positions] (dtype.ipynb) *)

(** The integer indicator of a decidable condition. *)
Definition indicator (P : Prop) `{Decision P} : Z := if decide P then 1 else 0.

Definition long_thirty (prices : DataFrame Qc) : DataFrame Z :=
  df_rmul 30 (astype_int (df_gt prices (Qc_of_Z 50))).

Definition short_ten (prices : DataFrame Qc) : DataFrame Z :=
  df_rmul (-10) (astype_int (df_lt prices (Qc_of_Z 20))).

Definition generate_positions (prices : DataFrame Qc) : DataFrame Z :=
  let long_thirty := long_thirty prices in
  let short_ten := short_ten prices in
  let final_position := df_add long_thirty short_ten in
  final_position.

(** ** [date_top_industries] (top_and_bottom_performing.ipynb)

    [set(sector.loc[prices.loc[date].nlargest(top_n).index])] *)

Definition date_top_industries (prices : DataFrame Qc) (sector : gmap label string)
    (date : label) (top_n : nat) : result (gset string) :=
  row ← df_loc prices date;
  top ← sel_nlargest row top_n;
  secs ← series_loc sector (index top);
  mret (to_set secs).

(** [before x y]: position [x.1] is taken ahead of position [y.1], because
    its value is larger, or equal with the position occurring first. *)
Definition before (x y : nat * Qc) : Prop :=
  (y.2 < x.2)%Qc ∨ (y.2 = x.2 ∧ (x.1 < y.1)%nat).

(** [top] are the positions of the [n] largest prices of [row] (all
    positions if the row has fewer), a tie going to the position that
    occurs first. *)
Definition is_top_n (row : Series Qc) (n : nat) (top : list nat) : Prop :=
  NoDup top ∧
  length top = (n `min` length row)%nat ∧
  (∀ i, i ∈ top → (i < length row)%nat) ∧
  (∀ i j ti pi tj pj,
     i ∈ top → j ∉ top → row !! i = Some (ti, pi) → row !! j = Some (tj, pj) →
     (pj < pi)%Qc ∨ (pj = pi ∧ (i < j)%nat)).

(** The quiz example of the notebook. *)
Definition quiz_prices : DataFrame Qc :=
  mkDataFrame ["2013-07-08"; "2013-07-09"] ["A"; "B"; "C"; "D"; "E"]
    [ Qc_of_Z <$> [2; 2; 7; 2; 6];
      Qc_of_Z <$> [5; 3; 6; 7; 5] ].

(** Its row for 2013-07-09. *)
Definition quiz_row : Series Qc :=
  zip ["A"; "B"; "C"; "D"; "E"] (Qc_of_Z <$> [5; 3; 6; 7; 5]).

Definition quiz_sector : gmap label string :=
  list_to_map
    [ ("A", "Utilities"); ("B", "Health Care"); ("C", "Real Estate");
      ("D", "Real Estate"); ("E", "Information Technology") ].

(** The tables of the two notebooks' test cells. *)
Definition test_prices_dtype : DataFrame Qc :=
  mkDataFrame
    ["2005-01-22"; "2005-01-23"; "2005-01-24"; "2005-01-25"; "2005-01-26"; "2005-01-27"]
    ["ESWC"; "VEDB"; "HOM"; "TSGI"; "SJK"]
    [ Q2Qc <$> [65.40757705426432; 27.556319958924323; 50.59935209411175;
                56.274712269629134; 99.9873070881051]%Q;
      Q2Qc <$> [47.82126720752715; 56.812865745668375; 40.75685814634723;
                27.469680989736023; 41.449858088448735]%Q;
      Q2Qc <$> [88.20038097315815; 45.573972499280494; 36.592711369868724;
                21.36570423559795; 0.698919959739297]%Q;
      Q2Qc <$> [14.670236824202721; 49.557949251949054; 18.935364730808935;
                23.163368660093298; 8.075599541367884]%Q;
      Q2Qc <$> [41.499140208637705; 9.75987296846733; 66.08677766062186;
                37.927861417544385; 10.792730405945827]%Q;
      Q2Qc <$> [86.26923464863536; 32.12679487375028; 15.621592524570282;
                77.1908860965619; 52.733950486350444]%Q ].

Definition test_prices_top : DataFrame Qc :=
  mkDataFrame ["2008-11-20"; "2008-11-21"]
    ["WDV"; "WWRI"; "WTW"; "CCE"; "DQE"; "RTY"; "LZN"; "TTXK"; "TEM"; "ICYD"]
    [ Q2Qc <$> [21.050810483942833; 17.013843810658827; 10.984503755486879;
                11.248093428369392; 12.961712733997235; 482.34539247360806;
                35.202580592515041; 3516.5416782257166; 66.405314327318209;
                13.503960481087077]%Q;
      Q2Qc <$> [15.63570258751384; 14.69054309070934; 11.353027688995159;
                475.74195118202061; 11.959640427803022; 10.918933017418304;
                17.9086438675435; 24.801265417692324; 12.488954191854916;
                15.63570258751384]%Q ].

Definition test_sector : gmap label string :=
  list_to_map
    (zip ["WDV"; "WWRI"; "WTW"; "CCE"; "DQE"; "RTY"; "LZN"; "TTXK"; "TEM"; "ICYD"]
         ["ENERGY"; "MATERIALS"; "ENERGY"; "ENERGY"; "TELECOM"; "FINANCIALS";
          "TECHNOLOGY"; "HEALTH"; "MATERIALS"; "REAL ESTATE"]).

(** ** The two quiz functions on the interpreter's object store

    Tables are objects on a heap and the functions receive references.
    Every pandas call of the two bodies builds a new object; none writes to
    an operand. *)

Module Heap.

Definition addr := nat.

Inductive obj : Type :=
| OFrameQ (df : DataFrame Qc)
| OFrameB (df : DataFrame bool)
| OFrameZ (df : DataFrame Z)
| OSelection (x : selection Qc)
| OSeriesQ (s : Series Qc)
| OSeriesS (s : Series string)
| OMapping (m : gmap label string)
| OIndex (labels : list label)
| OSet (s : gset string).

Abbreviation heap := (gmap addr obj).

(** A new object at an unused address. *)
Definition alloc (o : obj) : eff heap addr := λ h,
  let a := fresh (dom h) in (<[a := o]> h, Ok a).

(** A method call [a.f(...)]: reads the receiver, builds the result. *)
Definition method (f : obj → result obj) (a : addr) : eff heap addr := λ h,
  match h !! a with
  | None => (h, Raise TypeError)
  | Some o =>
      match f o with
      | Ok o' => alloc o' h
      | Raise e => (h, Raise e)
      end
  end.

(** A binary operator or a call with a second table argument. *)
Definition method2 (f : obj → obj → result obj) (a b : addr) : eff heap addr := λ h,
  match h !! a, h !! b with
  | Some oa, Some ob =>
      match f oa ob with
      | Ok o' => alloc o' h
      | Raise e => (h, Raise e)
      end
  | _, _ => (h, Raise TypeError)
  end.

Definition obj_gt (c : Qc) (o : obj) : result obj :=
  match o with OFrameQ df => Ok (OFrameB (df_gt df c)) | _ => Raise TypeError end.

Definition obj_lt (c : Qc) (o : obj) : result obj :=
  match o with OFrameQ df => Ok (OFrameB (df_lt df c)) | _ => Raise TypeError end.

Definition obj_astype_int (o : obj) : result obj :=
  match o with OFrameB df => Ok (OFrameZ (astype_int df)) | _ => Raise TypeError end.

Definition obj_rmul (k : Z) (o : obj) : result obj :=
  match o with OFrameZ df => Ok (OFrameZ (df_rmul k df)) | _ => Raise TypeError end.

Definition obj_add (a b : obj) : result obj :=
  match a, b with
  | OFrameZ x, OFrameZ y => Ok (OFrameZ (df_add x y))
  | _, _ => Raise TypeError
  end.

Definition obj_loc (key : label) (o : obj) : result obj :=
  match o with
  | OFrameQ df => x ← df_loc df key; Ok (OSelection x)
  | _ => Raise TypeError
  end.

Definition obj_nlargest (n : nat) (o : obj) : result obj :=
  match o with
  | OSelection x => s ← sel_nlargest x n; Ok (OSeriesQ s)
  | _ => Raise TypeError
  end.

Definition obj_index (o : obj) : result obj :=
  match o with OSeriesQ s => Ok (OIndex (index s)) | _ => Raise TypeError end.

Definition obj_series_loc (sector labels : obj) : result obj :=
  match sector, labels with
  | OMapping m, OIndex ls => s ← series_loc m ls; Ok (OSeriesS s)
  | _, _ => Raise TypeError
  end.

Definition obj_set (o : obj) : result obj :=
  match o with OSeriesS s => Ok (OSet (to_set s)) | _ => Raise TypeError end.

Definition generate_positions (prices : addr) : eff heap addr :=
  above ← method (obj_gt (Qc_of_Z 50)) prices;
  above_int ← method obj_astype_int above;
  long_thirty ← method (obj_rmul 30) above_int;
  below ← method (obj_lt (Qc_of_Z 20)) prices;
  below_int ← method obj_astype_int below;
  short_ten ← method (obj_rmul (-10)) below_int;
  final_position ← method2 obj_add long_thirty short_ten;
  mret final_position.

Definition date_top_industries (prices sector : addr) (date : label) (top_n : nat)
  : eff heap addr :=
  row ← method (obj_loc date) prices;
  top ← method (obj_nlargest top_n) row;
  idx ← method obj_index top;
  secs ← method2 obj_series_loc sector idx;
  top_industries ← method obj_set secs;
  mret top_industries.

(** The object a run returned, or the exception it raised. *)
Definition returned (run : heap * result addr) : result obj :=
  match run.2 with
  | Ok a => from_option Ok (Raise TypeError) (run.1 !! a)
  | Raise e => Raise e
  end.

End Heap.

(** ** Tensors, gradients and the optimizer

    Tensor entries are idealised as rationals.  A parameter's gradient is
    absent ([None] in Python) until a backward pass reaches it. *)

Module Torch.

Record Tensor : Type := mkTensor {
  tshape : list nat;
  tdata : list Qc
}.

Definition zeros_like (t : Tensor) : Tensor :=
  mkTensor (tshape t) ((λ _, 0%Qc) <$> tdata t).

Definition tensor_add (a b : Tensor) : Tensor :=
  mkTensor (tshape a) (zip_with Qcplus (tdata a) (tdata b)).

(** [p - lr * g] *)
Definition sgd_update (lr : Qc) (p g : Tensor) : Tensor :=
  mkTensor (tshape p) (zip_with (λ x d, x - lr * d)%Qc (tdata p) (tdata g)).

(** Same dimensions, same number of entries. *)
Definition tensor_like (a b : Tensor) : Prop :=
  tshape a = tshape b ∧ length (tdata a) = length (tdata b).

(** [grad += g], or [grad = g] for a parameter without a gradient. *)
Definition accumulate (grads g : gmap string Tensor) : gmap string Tensor :=
  union_with (λ old new, Some (tensor_add old new)) grads g.


(** One [Linear] layer's sizes. *)
Record Linear : Type := mkLinear {
  in_features : nat;
  out_features : nat
}.

(** A fully-connected network: its hidden layers, its output layer and
    the tensors registered under their parameter names. *)
Record Module : Type := mkModule {
  hidden_layers : list Linear;
  output : Linear;
  parameters : gmap string Tensor
}.

Definition state_dict (model : Module) : gmap string Tensor := parameters model.

(** The parameters a [Linear] layer registers under [name]: a weight of
    dimensions [out, in] and a bias of dimension [out], with the initial
    values [init] draws for them. *)
Definition linear_parameters (init : string → list nat → list Qc) (name : string)
    (l : Linear) : list (string * Tensor) :=
  [ (name +:+ ".weight",
     mkTensor [out_features l; in_features l]
       (init (name +:+ ".weight") [out_features l; in_features l]));
    (name +:+ ".bias",
     mkTensor [out_features l] (init (name +:+ ".bias") [out_features l])) ].

(** Modelled from the spec: [fc_model.Network], whose file is not part of
    the sources.  The network is an ordered list of linear layers: one per
    hidden width, each fed by the previous width (the first by
    [input_size]), then the output layer; parameters are named
    [hidden_layers.<i>.weight|bias] and [output.weight|bias] as the
    notebook prints them. *)
Definition Network (init : string → list nat → list Qc)
    (input_size output_size : nat) (hidden : list nat) : Module :=
  let layers := zip_with mkLinear (input_size :: hidden) hidden in
  let out := mkLinear (List.last hidden input_size) output_size in
  mkModule layers out
    (list_to_map
       (mjoin (imap (λ i, linear_parameters init ("hidden_layers." +:+ pretty i)) layers)
        ++ linear_parameters init "output" out)).

(** [b] is [a] up to the values of the parameters: the same layers and,
    name by name, parameters of the same dimensions.  Training changes
    values only. *)
Definition same_architecture (a b : Module) : Prop :=
  hidden_layers a = hidden_layers b ∧
  output a = output b ∧
  tshape <$> parameters a = tshape <$> parameters b.

(** Does the checkpoint's tensor under this name differ in dimensions from
    the model's parameter? *)
Definition size_mismatch (model : Module) (name : string) (t : Tensor) : bool :=
  match parameters model !! name with
  | Some p => bool_decide (tshape p ≠ tshape t)
  | None => false
  end.

(** Modelled from the spec: [Module.load_state_dict] is the library's and
    not part of the sources.  With the default [strict=True] the keys must
    be the model's parameter names and every tensor must have its
    parameter's dimensions; the values are then copied into the
    parameters.  Otherwise the library raises its [RuntimeError], which
    lists the offending names (the notebook shows one). *)
Definition load_state_dict (model : Module) (sd : gmap string Tensor) : result Module :=
  let missing := elements (dom (parameters model) ∖ dom sd) in
  let unexpected := elements (dom sd ∖ dom (parameters model)) in
  let mismatched :=
    elements (dom (filter (λ kv, size_mismatch model kv.1 kv.2 = true) sd)) in
  if decide (missing = [] ∧ unexpected = [] ∧ mismatched = []) then
    Ok (mkModule (hidden_layers model) (output model)
          (map_zip_with (λ p t, mkTensor (tshape p) (tdata t)) (parameters model) sd))
  else Raise (RuntimeError missing unexpected mismatched).

(** *** Checkpoint files (the save/load notebook) *)

Record Checkpoint : Type := mkCheckpoint {
  ck_input_size : nat;
  ck_output_size : nat;
  ck_hidden_layers : list nat;
  ck_state_dict : gmap string Tensor
}.

(** What a [.pth] file holds: the notebook first saves a bare state dict,
    then the checkpoint dictionary. *)
Inductive pickled : Type :=
| PStateDict (sd : gmap string Tensor)
| PCheckpoint (c : Checkpoint).

Abbreviation files := (gmap string pickled).

(** Modelled from the spec: [torch.save] and [torch.load] are the library's
    object serialization; a file holds the object saved to it last. *)
Definition torch_save (o : pickled) (path : string) (fs : files) : files :=
  <[path := o]> fs.

Definition torch_load (path : string) (fs : files) : result pickled :=
  from_option Ok (Raise (FileNotFoundError path)) (fs !! path).

(** The checkpoint cell:
    [{'input_size': 784, 'output_size': 10,
      'hidden_layers': [each.out_features for each in model.hidden_layers],
      'state_dict': model.state_dict()}] *)
Definition checkpoint (model : Module) : Checkpoint :=
  mkCheckpoint 784 10 (out_features <$> hidden_layers model) (state_dict model).

Definition load_checkpoint (init : string → list nat → list Qc) (filepath : string)
    (fs : files) : result Module :=
  file ← torch_load filepath fs;
  match file with
  | PCheckpoint checkpoint =>
      let model := Network init (ck_input_size checkpoint) (ck_output_size checkpoint)
                     (ck_hidden_layers checkpoint) in
      load_state_dict model (ck_state_dict checkpoint)
  | PStateDict _ => Raise (KeyError "input_size")
  end.

End Torch.

Import Torch.

(** ** The training loop (Part3_Training-Neural-Networks.ipynb) *)

Section Training.

(** A mini-batch is a list of samples; the model's forward pass, the loss
    and the gradient of the loss with respect to the parameters are the
    library's. *)
Context {sample activations : Type}.
Variable forward : gmap string Tensor → list sample → activations.
Variable criterion : activations → list sample → Qc.
Variable autograd : gmap string Tensor → list sample → gmap string Tensor.

(** The library calls the loop makes, as they happen. *)
Inductive call : Type :=
| ZeroGrad
| Forward (batch : list sample)
| Criterion (batch : list sample)
| Backward (batch : list sample)
| Step.

Record trainer : Type := mkTrainer {
  params : gmap string Tensor;
  grads : gmap string Tensor;
  calls : list call;
  printed : list Qc
}.

(** Modelled from the spec: [optimizer.zero_grad()] is the library's; it
    is the explicit reset, zeroing every gradient there is. *)
Definition zero_grad : eff trainer () := λ st,
  (mkTrainer (params st) (zeros_like <$> grads st) (calls st ++ [ZeroGrad]) (printed st),
   Ok ()).

(** [output = model.forward(images)] *)
Definition model_forward (batch : list sample) : eff trainer activations := λ st,
  (mkTrainer (params st) (grads st) (calls st ++ [Forward batch]) (printed st),
   Ok (forward (params st) batch)).

(** [loss = criterion(output, labels)] *)
Definition loss_of (out : activations) (batch : list sample) : eff trainer Qc := λ st,
  (mkTrainer (params st) (grads st) (calls st ++ [Criterion batch]) (printed st),
   Ok (criterion out batch)).

(** Modelled from the spec: [loss.backward()] is the library's; gradients
    are additive across calls, so it adds the gradient of this batch's
    loss to what each parameter holds. *)
Definition backward (batch : list sample) : eff trainer () := λ st,
  (mkTrainer (params st) (accumulate (grads st) (autograd (params st) batch))
     (calls st ++ [Backward batch]) (printed st),
   Ok ()).

(** Modelled from the spec: [optimizer.step()] of [optim.SGD] is the
    library's; a parameter that has a gradient moves against it by the
    learning rate. *)
Definition step (lr : Qc) : eff trainer () := λ st,
  (mkTrainer
     (merge (λ p g, match p, g with
                    | Some p, Some g => Some (sgd_update lr p g)
                    | _, _ => p
                    end) (params st) (grads st))
     (grads st) (calls st ++ [Step]) (printed st),
   Ok ()).

(** [print(f"Training loss: {running_loss/len(trainloader)}")] *)
Definition print_loss (running_loss : Qc) (n_batches : nat) : eff trainer () := λ st,
  if decide (n_batches = 0%nat) then (st, Raise ZeroDivisionError)
  else
    (mkTrainer (params st) (grads st) (calls st)
       (printed st ++ [(running_loss / Qc_of_Z (Z.of_nat n_batches))%Qc]),
     Ok ()).

(** The body of the inner loop.  Its first statement,
    [images.view(images.shape[0], -1)], lays every image of the batch out
    as one row; the batch holds the same samples before and after. *)
Definition training_pass (lr : Qc) (running_loss : Qc) (batch : list sample)
  : eff trainer Qc :=
  _ ← zero_grad;
  output ← model_forward batch;
  loss ← loss_of output batch;
  _ ← backward batch;
  _ ← step lr;
  mret (running_loss + loss)%Qc.

(** [trainloader e] is what iterating the loader yields the [e]-th time. *)
Definition epoch (lr : Qc) (trainloader : nat → list (list sample)) (_ : ()) (e : nat)
  : eff trainer () :=
  running_loss ← for_each (training_pass lr) (trainloader e) 0%Qc;
  print_loss running_loss (length (trainloader e)).

Definition lr_solution : Qc := Q2Qc (3 # 1000).

Definition train (trainloader : nat → list (list sample)) (epochs : nat) : eff trainer () :=
  for_each (epoch lr_solution trainloader) (seq 0 epochs) ().

(** [g] is a gradient for the parameters [ps]: one tensor per parameter,
    of the parameter's dimensions.  This is what automatic
    differentiation returns. *)
Definition gradient_for (ps g : gmap string Tensor) : Prop :=
  dom g = dom ps ∧
  ∀ name t p, g !! name = Some t → ps !! name = Some p → tensor_like t p.

(** The gradients a trainer holds belong to its parameters. *)
Definition grads_ok (st : trainer) : Prop :=
  ∀ name t, grads st !! name = Some t →
            ∃ p, params st !! name = Some p ∧ tensor_like t p.

(** The samples the forward calls of a log were given. *)
Definition forwarded (cs : list call) : list sample :=
  cs ≫= λ c, match c with Forward batch => batch | _ => [] end.

(** The calls of one training pass over [batch], in order. *)
Definition pass_calls (batch : list sample) : list call :=
  [ZeroGrad; Forward batch; Criterion batch; Backward batch; Step].

End Training.

(** A small instance of the loop: samples are numbers, the gradient of a
    batch is, for every parameter, the batch size in every entry, and the
    loader yields three samples in two mini-batches, in another order
    every other epoch. *)
Definition toy_autograd (ps : gmap string Tensor) (batch : list nat) : gmap string Tensor :=
  (λ p, mkTensor (tshape p) ((λ _, Qc_of_Z (Z.of_nat (length batch))) <$> tdata p)) <$> ps.

Definition toy_trainer : trainer (sample := nat) :=
  mkTrainer {[ "weight" := mkTensor [2%nat] [Qc_of_Z 1; Qc_of_Z 2] ]}
            {[ "weight" := mkTensor [2%nat] [Qc_of_Z 5; Qc_of_Z 7] ]} [] [].

Definition toy_loader (e : nat) : list (list nat) :=
  if Nat.even e then [[1; 2]; [3]]%nat else [[3; 1]; [2]]%nat.

(** ** Further cells of the notebooks *)

(** *** dtype.ipynb: arrays, casts and the worked example *)

Module Numpy.

(** [np.arange(n)] *)
Definition arange (n : nat) : list Z := Z.of_nat <$> seq 0 n.

(** [a / d] on an integer array: true division, a float array. *)
Definition true_divide (a : list Z) (d : Z) : list Qc :=
  (λ x, (Qc_of_Z x / Qc_of_Z d)%Qc) <$> a.

(** [a.astype(np.int64)] on a float array: the decimal place is dropped. *)
Definition astype_int64 (a : list Qc) : list Z :=
  (λ q : Qc, Z.quot (Qnum q) (Zpos (Qden q))) <$> a.

(** [a > c] *)
Definition greater (a : list Z) (c : Z) : list bool :=
  (λ x, bool_decide (c < x)) <$> a.

(** [a.astype(np.int)] on a boolean array. *)
Definition astype_int (a : list bool) : list Z :=
  (λ b : bool, if b then 1 else 0) <$> a.

(** [k * a] *)
Definition rmul (k : Z) (a : list Z) : list Z := (λ x, wrap64 (k * x)) <$> a.

(** [a + b] for arrays of one shape. *)
Definition add (a b : list Z) : list Z := zip_with (λ x y, wrap64 (x + y)) a b.

End Numpy.

(** [float_arr = array / 2] and [int_arr = float_arr.astype(np.int64)] *)
Definition float_arr (array : list Z) : list Qc := Numpy.true_divide array 2.

Definition int_arr (array : list Z) : list Z := Numpy.astype_int64 (float_arr array).

(** The worked example: one share above 2 dollars, three more above 4. *)
Definition long_pos (prices : list Z) : list Z :=
  let signal_one := Numpy.greater prices 2 in
  let signal_three := Numpy.greater prices 4 in
  let signal_one := Numpy.astype_int signal_one in
  let signal_three := Numpy.astype_int signal_three in
  let pos_one := Numpy.rmul 1 signal_one in
  let pos_three := Numpy.rmul 3 signal_three in
  let long_pos := Numpy.add pos_one pos_three in
  long_pos.

(** *** top_and_bottom_performing.ipynb: top and bottom performers *)

(** A function applied to the cells of what [loc] selected. *)
Definition sel_map {A B} (f : A → B) (x : selection A) : selection B :=
  match x with
  | SelRow s => SelRow (prod_map id f <$> s)
  | SelFrame df => SelFrame (df_map f df)
  end.

(** [k * df] on a frame of prices. *)
Definition df_scale (k : Qc) (df : DataFrame Qc) : DataFrame Qc :=
  df_map (Qcmult k) df.

(** [close_month.loc[month].nlargest(n)] *)
Definition top_performing (close_month : DataFrame Qc) (month : label) (n : nat)
  : result (Series Qc) :=
  row ← df_loc close_month month;
  sel_nlargest row n.

(** The notebook's [close_month] holds integers, and so do the frames and
    Series of the bottom performers cells: their products are [int64]
    products and wrap around. *)

(** [k * s] on an integer Series. *)
Definition series_rmul (k : Z) (s : Series Z) : Series Z :=
  prod_map id (λ z, wrap64 (k * z)) <$> s.

(** [Series.nlargest(n)] on an integer Series: as [nlargest], the integers
    ordered as the rationals they are. *)
Definition nlargest_int64 (n : nat) (s : Series Z) : Series Z :=
  iloc s (take n (argsort_desc (Qc_of_Z <$> s.*2))).

Definition sel_nlargest_int64 (x : selection Z) (n : nat) : result (Series Z) :=
  match x with
  | SelRow s => Ok (nlargest_int64 n s)
  | SelFrame _ => Raise TypeError
  end.

(** [(-1 * close_month).loc[month].nlargest(n)] *)
Definition bottom_flipped (close_month : DataFrame Z) (month : label) (n : nat)
  : result (Series Z) :=
  row ← df_loc (df_rmul (-1) close_month) month;
  sel_nlargest_int64 row n.

(** [(-1 * close_month).loc[month].nlargest(n) * -1] *)
Definition bottom_performing (close_month : DataFrame Z) (month : label) (n : nat)
  : result (Series Z) :=
  flipped ← bottom_flipped close_month month n;
  mret (series_rmul (-1) flipped).


(** The notebook's table: one month, eight tickers. *)
Definition month : label := "2018-02-01".

Definition close_month : DataFrame Z :=
  mkDataFrame [month] ["A"; "B"; "C"; "D"; "E"; "F"; "G"; "H"]
    [[1; 12; 35; 3; 79; 2; 15; 59]].


(** *** Saving and loading a bare state dict *)

(** [state_dict = torch.load(path); model.load_state_dict(state_dict)].
    A file that holds the checkpoint dictionary instead has none of the
    model's keys and four keys of its own. *)
Definition load_saved_state_dict (model : Module) (path : string) (fs : files)
  : result Module :=
  state_dict ← torch_load path fs;
  match state_dict with
  | PStateDict sd => load_state_dict model sd
  | PCheckpoint _ =>
      Raise (RuntimeError (elements (dom (parameters model)))
               ["input_size"; "output_size"; "hidden_layers"; "state_dict"] [])
  end.

(** *** Part3_Training-Neural-Networks.ipynb: what the loop computes *)

Section Descent.

Context {sample activations : Type}.
Variable forward : gmap string Tensor → list sample → activations.
Variable criterion : activations → list sample → Qc.
Variable autograd : gmap string Tensor → list sample → gmap string Tensor.

(** The parameter update of [optim.SGD]: a parameter that has a gradient
    moves against it by the learning rate. *)
Definition sgd_step (lr : Qc) (ps gs : gmap string Tensor) : gmap string Tensor :=
  merge (λ p g, match p, g with
                | Some p, Some g => Some (sgd_update lr p g)
                | _, _ => p
                end) ps gs.

(** What one library call of the log does to the parameters and to their
    gradients: clearing zeroes the gradients, the backward pass adds the
    gradient of its batch at the current parameters, the optimizer step
    updates the parameters; the forward pass and the loss change
    neither. *)
Definition call_effect (lr : Qc) (pg : gmap string Tensor * gmap string Tensor)
    (c : call (sample := sample)) : gmap string Tensor * gmap string Tensor :=
  match c with
  | ZeroGrad => (pg.1, zeros_like <$> pg.2)
  | Forward _ => pg
  | Criterion _ => pg
  | Backward batch => (pg.1, accumulate pg.2 (autograd pg.1 batch))
  | Step => (sgd_step lr pg.1 pg.2, pg.2)
  end.

(** The parameters and gradients after the calls of a log, in order. *)
Definition replay (lr : Qc) (cs : list (call (sample := sample)))
    (pg : gmap string Tensor * gmap string Tensor)
  : gmap string Tensor * gmap string Tensor :=
  foldl (call_effect lr) pg cs.

(** Mini-batch gradient descent in the spec's words: one iteration is the
    forward pass, the loss, the gradient of that loss and the parameter
    update; it carries the parameters and the running loss. *)
Definition sgd_iteration (lr : Qc) (acc : gmap string Tensor * Qc) (batch : list sample)
  : gmap string Tensor * Qc :=
  let output := forward acc.1 batch in
  let loss := criterion output batch in
  let gradient := autograd acc.1 batch in
  (sgd_step lr acc.1 gradient, (acc.2 + loss)%Qc).

(** One epoch: the iterations over the mini-batches of one pass of the
    loader, then the mean loss is reported. *)
Definition sgd_epoch (lr : Qc) (acc : gmap string Tensor * list Qc)
    (batches : list (list sample)) : gmap string Tensor * list Qc :=
  let r := foldl (sgd_iteration lr) (acc.1, 0%Qc) batches in
  (r.1, acc.2 ++ [(r.2 / Qc_of_Z (Z.of_nat (length batches)))%Qc]).

(** The parameters and the reported losses after [epochs] epochs. *)
Definition sgd_train (lr : Qc) (trainloader : nat → list (list sample)) (epochs : nat)
    (acc : gmap string Tensor * list Qc) : gmap string Tensor * list Qc :=
  foldl (sgd_epoch lr) acc (trainloader <$> seq 0 epochs).

End Descent.

(** * Part II: lemmas and theorems *)

(** ** [generate_positions] *)

Lemma zip_with_fmap_same {A B C D} (f : B → C → D) (g : A → B) (h : A → C) (l : list A) :
  zip_with f (g <$> l) (h <$> l) = (λ x, f (g x) (h x)) <$> l.
Proof. induction l as [|x l IH]; csimpl; [done|]. by rewrite IH. Qed.

Lemma df_map_map {A B C} (f : A → B) (g : B → C) (df : DataFrame A) :
  df_map g (df_map f df) = df_map (g ∘ f) df.
Proof.
  unfold df_map; simpl. f_equal.
  rewrite <- list_fmap_compose. apply list_fmap_ext; intros _ row _; simpl.
  by rewrite <- list_fmap_compose.
Qed.

(** No price is above 50 and below 20 at once. *)
Lemma thresholds_exclusive (p : Qc) : ¬ ((Qc_of_Z 50 < p)%Qc ∧ (p < Qc_of_Z 20)%Qc).
Proof.
  intros [Hhi Hlo].
  pose proof (Qclt_trans _ _ _ Hhi Hlo) as H.
  by vm_compute in H.
Qed.

(** One cell: the two scaled casts and their sum stay far from the
    [int64] bounds. *)
Lemma cell_position (p : Qc) :
  wrap64 (wrap64 (30 * (if bool_decide (Qc_of_Z 50 < p)%Qc then 1 else 0))
          + wrap64 (-10 * (if bool_decide (p < Qc_of_Z 20)%Qc then 1 else 0)))
  = 30 * indicator (Qc_of_Z 50 < p)%Qc + -10 * indicator (p < Qc_of_Z 20)%Qc.
Proof.
  unfold indicator. rewrite !bool_decide_decide.
  destruct (decide (Qc_of_Z 50 < p)%Qc), (decide (p < Qc_of_Z 20)%Qc); reflexivity.
Qed.

Lemma long_thirty_eq (prices : DataFrame Qc) :
  long_thirty prices
  = df_map (λ p, wrap64 (30 * (if bool_decide (Qc_of_Z 50 < p)%Qc then 1 else 0))) prices.
Proof. unfold long_thirty, df_rmul, astype_int, df_gt. by rewrite !df_map_map. Qed.

Lemma short_ten_eq (prices : DataFrame Qc) :
  short_ten prices
  = df_map (λ p, wrap64 (-10 * (if bool_decide (p < Qc_of_Z 20)%Qc then 1 else 0))) prices.
Proof. unfold short_ten, df_rmul, astype_int, df_lt. by rewrite !df_map_map. Qed.

Lemma generate_positions_eq (prices : DataFrame Qc) :
  generate_positions prices
  = df_map (λ p, 30 * indicator (Qc_of_Z 50 < p)%Qc + -10 * indicator (p < Qc_of_Z 20)%Qc)
      prices.
Proof.
  unfold generate_positions. rewrite long_thirty_eq, short_ten_eq.
  unfold df_add, df_map; simpl. f_equal.
  rewrite zip_with_fmap_same. apply list_fmap_ext; intros _ row _.
  rewrite zip_with_fmap_same. apply list_fmap_ext; intros _ p _. apply cell_position.
Qed.

Lemma df_at_map {A B} (f : A → B) (df : DataFrame A) i j :
  df_at (df_map f df) i j = f <$> df_at df i j.
Proof.
  unfold df_at, df_map; simpl. rewrite list_lookup_fmap.
  destruct (df_values df !! i) as [row|]; simpl; [|done].
  by rewrite list_lookup_fmap.
Qed.

(** C1: [generate_positions prices] has the dates and tickers of [prices],
    and each of its cells is 30 times the indicator of [price > 50] plus
    -10 times the indicator of [price < 20]; the comparisons are strict,
    so a price equal to 50 or equal to 20 gives 0. *)
Theorem generate_positions_spec (prices : DataFrame Qc) :
  generate_positions prices
  = df_map (λ p, 30 * indicator (Qc_of_Z 50 < p)%Qc + -10 * indicator (p < Qc_of_Z 20)%Qc)
      prices ∧
  df_index (generate_positions prices) = df_index prices ∧
  df_columns (generate_positions prices) = df_columns prices ∧
  (∀ i j, df_at prices i j = Some (Qc_of_Z 50) ∨ df_at prices i j = Some (Qc_of_Z 20) →
          df_at (generate_positions prices) i j = Some 0).
Proof.
  split_and!; [apply generate_positions_eq | done | done |].
  intros i j Hp.
  rewrite generate_positions_eq, df_at_map.
  destruct Hp as [-> | ->]; reflexivity.
Qed.

(** C9: every cell of [generate_positions prices] is -10, 0 or 30, and at
    no cell are both the long and the short term nonzero, because no
    price is above 50 and below 20. *)
Theorem generate_positions_range (prices : DataFrame Qc) :
  Forall (Forall (λ v, v = -10 ∨ v = 0 ∨ v = 30)) (df_values (generate_positions prices)) ∧
  Forall2 (Forall2 (λ long short, long = 0 ∨ short = 0))
    (df_values (long_thirty prices)) (df_values (short_ten prices)) ∧
  Forall (Forall (λ p, ¬ ((Qc_of_Z 50 < p)%Qc ∧ (p < Qc_of_Z 20)%Qc))) (df_values prices).
Proof.
  split_and!.
  - rewrite generate_positions_eq. unfold df_map; simpl.
    apply Forall_fmap, Forall_true; intros row.
    apply Forall_fmap, Forall_true; intros p; simpl.
    unfold indicator.
    destruct (decide (Qc_of_Z 50 < p)%Qc) as [Hhi|], (decide (p < Qc_of_Z 20)%Qc) as [Hlo|];
      [destruct (thresholds_exclusive p); done | auto ..].
  - rewrite long_thirty_eq, short_ten_eq. unfold df_map; simpl.
    apply Forall2_fmap, Forall_Forall2_diag, Forall_true; intros row.
    apply Forall2_fmap, Forall_Forall2_diag, Forall_true; intros p.
    rewrite !bool_decide_decide.
    destruct (decide (Qc_of_Z 50 < p)%Qc) as [Hhi|], (decide (p < Qc_of_Z 20)%Qc) as [Hlo|];
      [destruct (thresholds_exclusive p); done | auto ..].
  - apply Forall_true; intros row. apply Forall_true, thresholds_exclusive.
Qed.

(** The notebook's test table and the positions it displays for it. *)
Example generate_positions_notebook :
  generate_positions test_prices_dtype
  = mkDataFrame (df_index test_prices_dtype) (df_columns test_prices_dtype)
      [ [ 30;   0;  30; 30;  30];
        [  0;  30;   0;  0;   0];
        [ 30;   0;   0;  0; -10];
        [-10;   0; -10;  0; -10];
        [  0; -10;  30;  0; -10];
        [ 30;   0; -10; 30;  30] ].
Proof. vm_compute. reflexivity. Qed.

(** ** [date_top_industries] *)

Lemma before_le (x y : nat * Qc) : before x y → (y.2 ≤ x.2)%Qc.
Proof.
  intros [H | [H _]]; [by apply Qclt_le_weak|]. rewrite H. apply Qcle_refl.
Qed.

Lemma insert_desc_perm x l : insert_desc x l ≡ₚ x :: l.
Proof.
  induction l as [|y l IH]; simpl; [done|].
  case_decide; [done|]. rewrite IH. apply perm_swap.
Qed.

(** Inserting an element that occurs earlier than all of a sorted list
    keeps the list sorted and puts it ahead of its equals. *)
Lemma insert_desc_sorted x l :
  StronglySorted before l →
  Forall (λ y, (x.1 < y.1)%nat) l →
  StronglySorted before (insert_desc x l).
Proof.
  induction l as [|y l IH]; simpl; intros Hs Hlt.
  - repeat constructor.
  - apply StronglySorted_cons in Hs as [Hy Hs].
    apply Forall_cons in Hlt as [Hxy Hlt].
    case_decide as Hle.
    + apply StronglySorted_cons; split; [|by apply StronglySorted_cons].
      assert (∀ z, (z.2 ≤ x.2)%Qc → (x.1 < z.1)%nat → before x z) as Hb.
      { intros z Hz Hi. destruct (Qcle_lt_or_eq _ _ Hz) as [?|?]; [by left|by right]. }
      constructor; [by apply Hb|].
      rewrite Forall_forall in Hy, Hlt |- *. intros z Hz.
      apply Hb; [|by apply Hlt].
      eapply Qcle_trans; [apply before_le, Hy, Hz | done].
    + apply StronglySorted_cons; split; [|by apply IH].
      rewrite insert_desc_perm. constructor; [|done].
      left. by apply Qcnot_le_lt.
Qed.

Lemma elem_of_zip_seq (vs : list Qc) k i v :
  (i, v) ∈ zip (seq k (length vs)) vs ↔ (k ≤ i)%nat ∧ vs !! (i - k)%nat = Some v.
Proof.
  rewrite elem_of_lookup_zip_with. split.
  - intros (n & x & y & [= -> ->] & Hx & Hy).
    apply lookup_seq in Hx as [-> Hn].
    split; [lia|]. by replace (k + n - k)%nat with n by lia.
  - intros [Hk Hv]. exists (i - k)%nat, i, v. split_and!; [done| |done].
    apply lookup_seq. split; [lia|]. by apply lookup_lt_Some in Hv.
Qed.

Lemma sort_indexed (vs : list Qc) k :
  StronglySorted before (foldr insert_desc [] (zip (seq k (length vs)) vs)) ∧
  foldr insert_desc [] (zip (seq k (length vs)) vs) ≡ₚ zip (seq k (length vs)) vs.
Proof.
  revert k. induction vs as [|v vs IH]; intros k; simpl.
  - split; [constructor | done].
  - destruct (IH (S k)) as [Hs Hp]. split.
    + apply insert_desc_sorted; [done|].
      rewrite Hp. apply Forall_forall. intros [i w] Hi.
      apply elem_of_zip_seq in Hi as [Hi _]. simpl. lia.
    + by rewrite insert_desc_perm, Hp.
Qed.

Lemma argsort_desc_perm (vs : list Qc) : argsort_desc vs ≡ₚ seq 0 (length vs).
Proof.
  unfold argsort_desc.
  rewrite (proj2 (sort_indexed vs 0)), fst_zip; [done|].
  by rewrite length_seq.
Qed.

(** The first [n] positions of the argsort are the top [n]. *)
Lemma argsort_desc_top (vs : list Qc) (n : nat) :
  NoDup (take n (argsort_desc vs)) ∧
  length (take n (argsort_desc vs)) = (n `min` length vs)%nat ∧
  (∀ i, i ∈ take n (argsort_desc vs) → (i < length vs)%nat) ∧
  (∀ i j vi vj,
     i ∈ take n (argsort_desc vs) → j ∉ take n (argsort_desc vs) →
     vs !! i = Some vi → vs !! j = Some vj → before (i, vi) (j, vj)).
Proof.
  pose proof (argsort_desc_perm vs) as Hperm.
  assert (NoDup (argsort_desc vs)) as Hnd by (rewrite Hperm; apply NoDup_seq).
  split_and!.
  - rewrite <- (take_drop n (argsort_desc vs)) in Hnd. by apply NoDup_app in Hnd as [? _].
  - by rewrite length_take, Hperm, length_seq.
  - intros i Hi.
    assert (i ∈ argsort_desc vs) as Hin.
    { rewrite <- (take_drop n (argsort_desc vs)). apply elem_of_app. by left. }
    rewrite Hperm in Hin. apply elem_of_seq in Hin. lia.
  - intros i j vi vj Hi Hj Hvi Hvj.
    destruct (sort_indexed vs 0) as [Hs Hp].
    unfold argsort_desc in Hi, Hj.
    set (s := foldr insert_desc [] (zip (seq 0 (length vs)) vs)) in *.
    rewrite <- fmap_take in Hi, Hj.
    rewrite <- (take_drop n s) in Hs.
    apply (StronglySorted_app_1_elem_of _ _ _ _ _ Hs).
    + apply list_elem_of_fmap in Hi as ([i' w] & -> & Hi). simpl in *.
      assert ((i', w) ∈ s) as Hin.
      { rewrite <- (take_drop n s). apply elem_of_app. by left. }
      rewrite Hp in Hin. apply elem_of_zip_seq in Hin as [_ Hw].
      replace (i' - 0)%nat with i' in Hw by lia. by simplify_eq.
    + assert ((j, vj) ∈ s) as Hin.
      { rewrite Hp. apply elem_of_zip_seq. split; [lia|].
        by replace (j - 0)%nat with j by lia. }
      rewrite <- (take_drop n s) in Hin. apply elem_of_app in Hin as [Hin|Hin]; [|done].
      destruct Hj. apply list_elem_of_fmap. by exists (j, vj).
Qed.

Lemma nlargest_is_top_n (row : Series Qc) (n : nat) :
  is_top_n row n (take n (argsort_desc row.*2)).
Proof.
  destruct (argsort_desc_top row.*2 n) as (Hnd & Hlen & Hlt & Htop).
  rewrite length_fmap in Hlen, Hlt.
  split_and!; [done..|].
  intros i j ti pi tj pj Hi Hj Hri Hrj.
  apply (Htop i j pi pj Hi Hj); rewrite list_lookup_fmap; [by rewrite Hri | by rewrite Hrj].
Qed.

(** [is_top_n] pins the chosen positions down: two choices for one row
    hold the same positions. *)
Lemma is_top_n_subset (row : Series Qc) n top1 top2 :
  is_top_n row n top1 → is_top_n row n top2 → ∀ i, i ∈ top1 → i ∈ top2.
Proof.
  intros (Hnd1 & Hlen1 & Hlt1 & Hb1) (Hnd2 & Hlen2 & Hlt2 & Hb2) i Hi.
  destruct (decide (i ∈ top2)) as [|Hni]; [done|]. exfalso.
  destruct (decide (Forall (λ j, j ∈ top1) top2)) as [Hall|Hex].
  - assert (top2 ⊆+ top1) as Hsub.
    { apply NoDup_submseteq; [done|]. by apply Forall_forall. }
    apply submseteq_length_Permutation in Hsub; [|lia].
    apply Hni. by rewrite Hsub.
  - apply not_Forall_Exists in Hex; [|apply _].
    apply Exists_exists in Hex as (j & Hj & Hnj).
    destruct (lookup_lt_is_Some_2 row i (Hlt1 i Hi)) as [[ti pi] Hri].
    destruct (lookup_lt_is_Some_2 row j (Hlt2 j Hj)) as [[tj pj] Hrj].
    pose proof (Hb1 i j ti pi tj pj Hi Hnj Hri Hrj) as H1.
    pose proof (Hb2 j i tj pj ti pi Hj Hni Hrj Hri) as H2.
    destruct H1 as [H1 | [-> H1]], H2 as [H2 | [H2 H2']].
    + by destruct (Qclt_not_eq pi pi (Qclt_trans _ _ _ H2 H1)).
    + subst. by destruct (Qclt_not_eq pj pj).
    + by destruct (Qclt_not_eq pi pi).
    + lia.
Qed.

Lemma is_top_n_unique (row : Series Qc) n top1 top2 :
  is_top_n row n top1 → is_top_n row n top2 → top1 ≡ₚ top2.
Proof.
  intros H1 H2. apply NoDup_Permutation; [apply H1 | apply H2 |].
  intros i. split; by apply is_top_n_subset with row n.
Qed.

Lemma series_loc_Ok (sector : gmap label string) labels s :
  series_loc sector labels = Ok s →
  length s = length labels ∧
  ∀ v, v ∈ s.*2 ↔ ∃ l, l ∈ labels ∧ sector !! l = Some v.
Proof.
  revert s. induction labels as [|l labels IH]; simpl; intros s.
  - intros [= <-]. split; [done|]. intros v. split.
    + by intros ?%elem_of_nil.
    + by intros (l & ?%elem_of_nil & _).
  - destruct (sector !! l) as [w|] eqn:Hl; [|done].
    destruct (series_loc sector labels) as [rest|e]; simpl; [|done].
    intros [= <-]. destruct (IH rest eq_refl) as [Hlen Hiff].
    split; [simpl; by rewrite Hlen|].
    intros v. rewrite fmap_cons, !elem_of_cons, Hiff. simpl. split.
    + intros [-> | (l' & Hl' & Hv)]; [exists l | exists l']; (split; [|done]).
      * by left.
      * by right.
    + intros (l' & Hl' & Hv). apply elem_of_cons in Hl' as [-> | Hl'].
      * left. congruence.
      * right. by exists l'.
Qed.

Lemma series_loc_covered (sector : gmap label string) labels :
  (∀ l, l ∈ labels → is_Some (sector !! l)) →
  ∃ s, series_loc sector labels = Ok s.
Proof.
  induction labels as [|l labels IH]; simpl; intros Hcov; [by eexists|].
  destruct (Hcov l) as [w ->]; [by left|].
  destruct IH as [rest ->]; [|by eexists].
  intros l' Hl'. apply Hcov. by right.
Qed.

Lemma elem_of_index_iloc (row : Series Qc) (top : list nat) l :
  l ∈ index (iloc row top) ↔ ∃ i p, i ∈ top ∧ row !! i = Some (l, p).
Proof.
  unfold index, iloc. rewrite list_elem_of_fmap. split.
  - intros ([l' p] & -> & Hin). apply list_elem_of_omap in Hin as (i & Hi & Hrow).
    by exists i, p.
  - intros (i & p & Hi & Hrow). exists (l, p). split; [done|].
    apply list_elem_of_omap. by exists i.
Qed.

Lemma length_omap_le {A B} (f : A → option B) (l : list A) :
  (length (omap f l) ≤ length l)%nat.
Proof. induction l as [|x l IH]; csimpl; [done|]. destruct (f x); csimpl; lia. Qed.

Lemma size_list_to_set_le (l : list string) :
  (size (list_to_set (C := gset string) l) ≤ length l)%nat.
Proof.
  induction l as [|x l IH].
  { by rewrite list_to_set_nil, size_empty. }
  rewrite list_to_set_cons, size_union_alt, size_singleton. simpl.
  assert (size (list_to_set (C := gset string) l ∖ {[x]}) ≤ size (list_to_set (C := gset string) l))%nat.
  { apply subseteq_size. intros y Hy. by apply elem_of_difference in Hy as [? _]. }
  lia.
Qed.

(** On a date that selects one row, the function is the sector lookup of
    the labels of the [top_n] largest prices. *)
Lemma date_top_industries_row prices sector date top_n row :
  df_loc prices date = Ok (SelRow row) →
  date_top_industries prices sector date top_n
  = (secs ← series_loc sector (index (iloc row (take top_n (argsort_desc row.*2))));
     mret (to_set secs)).
Proof. intros Hrow. unfold date_top_industries. by rewrite Hrow. Qed.

(** C2: on a frame that has the row [date] and a sector mapping that
    covers the row's tickers, [date_top_industries] returns the set of the
    sector labels of the [top_n] tickers with the largest prices of the
    row, ties going to the ticker that occurs first in column order. *)
Theorem date_top_industries_spec prices sector date top_n row :
  df_loc prices date = Ok (SelRow row) →
  Forall (λ tp, is_Some (sector !! tp.1)) row →
  ∃ top S,
    is_top_n row top_n top ∧
    date_top_industries prices sector date top_n = Ok S ∧
    ∀ s, s ∈ S ↔ ∃ i t p, i ∈ top ∧ row !! i = Some (t, p) ∧ sector !! t = Some s.
Proof.
  intros Hrow Hcov. rewrite Forall_forall in Hcov.
  set (top := take top_n (argsort_desc row.*2)).
  destruct (series_loc_covered sector (index (iloc row top))) as [secs Hsecs].
  { intros l (i & p & _ & Hi)%elem_of_index_iloc.
    apply (Hcov (l, p)), list_elem_of_lookup. by exists i. }
  exists top, (to_set secs). split_and!.
  - apply nlargest_is_top_n.
  - rewrite (date_top_industries_row _ _ _ _ _ Hrow). fold top. by rewrite Hsecs.
  - intros s. unfold to_set. rewrite elem_of_list_to_set.
    rewrite (proj2 (series_loc_Ok _ _ _ Hsecs)). split.
    + intros (l & (i & p & Hi & Hl)%elem_of_index_iloc & Hs). by exists i, l, p.
    + intros (i & t & p & Hi & Ht & Hs). exists t. split; [|done].
      apply elem_of_index_iloc. by exists i, p.
Qed.

Lemma date_top_industries_spec_witness :
  ∃ top S,
    is_top_n quiz_row 3 top ∧
    date_top_industries quiz_prices quiz_sector "2013-07-09" 3 = Ok S ∧
    ∀ s, s ∈ S ↔ ∃ i t p, i ∈ top ∧ quiz_row !! i = Some (t, p) ∧ quiz_sector !! t = Some s.
Proof.
  apply (date_top_industries_spec quiz_prices quiz_sector "2013-07-09" 3 quiz_row).
  - vm_compute. reflexivity.
  - apply (bool_decide_unpack _). vm_compute. exact I.
Defined.

(** C6: on the quiz example (2013-07-09, top 3) the function returns
    {Utilities, Real Estate}: the three tickers taken are D, C and A; A
    and E tie at 5 and A, which occurs first, is the one taken. *)
Theorem date_top_industries_quiz :
  date_top_industries quiz_prices quiz_sector "2013-07-09" 3
  = Ok {[ "Utilities"; "Real Estate" ]} ∧
  (row ← df_loc quiz_prices "2013-07-09"; top ← sel_nlargest row 3; mret (index top))
  = Ok ["D"; "C"; "A"] ∧
  "Information Technology" ∉ ({[ "Utilities"; "Real Estate" ]} : gset string).
Proof.
  split_and!; [vm_compute; reflexivity | vm_compute; reflexivity |].
  rewrite not_elem_of_union, !not_elem_of_singleton. by split.
Qed.

(** The notebook's test cell: top 4 on 2008-11-21.  WDV and ICYD tie for
    the fourth place and WDV, the earlier column, is taken. *)
Example date_top_industries_notebook :
  date_top_industries test_prices_top test_sector "2008-11-21" 4
  = Ok {[ "ENERGY"; "HEALTH"; "TECHNOLOGY" ]} ∧
  (row ← df_loc test_prices_top "2008-11-21"; top ← sel_nlargest row 4; mret (index top))
  = Ok ["CCE"; "TTXK"; "LZN"; "WDV"].
Proof. split; vm_compute; reflexivity. Qed.

(** C10: the returned set has at most [min top_n (number of tickers)]
    elements, each the sector of a ticker of the row; and with [top_n] at
    least the number of tickers the function returns the sectors of all
    tickers. *)
Theorem date_top_industries_bounds prices sector date top_n row :
  df_loc prices date = Ok (SelRow row) →
  (∀ S, date_top_industries prices sector date top_n = Ok S →
     (size S ≤ top_n `min` length row)%nat ∧
     ∀ s, s ∈ S → ∃ t p, (t, p) ∈ row ∧ sector !! t = Some s) ∧
  (Forall (λ tp, is_Some (sector !! tp.1)) row →
   (length row ≤ top_n)%nat →
   ∃ S, date_top_industries prices sector date top_n = Ok S ∧
        ∀ s, s ∈ S ↔ ∃ t p, (t, p) ∈ row ∧ sector !! t = Some s).
Proof.
  intros Hrow. rewrite (date_top_industries_row _ _ _ _ _ Hrow). split.
  - intros S HS.
    destruct (series_loc sector _) as [secs|e] eqn:Hsecs; simpl in HS; [|done].
    injection HS as <-. destruct (series_loc_Ok _ _ _ Hsecs) as [Hlen Hiff]. split.
    + unfold to_set. etrans; [apply size_list_to_set_le|].
      rewrite length_fmap, Hlen. unfold index. rewrite length_fmap.
      etrans; [apply length_omap_le|].
      by rewrite length_take, (Permutation_length (argsort_desc_perm _)), length_seq,
        length_fmap.
    + intros s. unfold to_set. rewrite elem_of_list_to_set, Hiff.
      intros (l & (i & p & _ & Hl)%elem_of_index_iloc & Hs).
      exists l, p. split; [|done]. apply list_elem_of_lookup. by exists i.
  - intros Hcov Hn. rewrite Forall_forall in Hcov.
    assert (take top_n (argsort_desc row.*2) = argsort_desc row.*2) as ->.
    { apply take_ge.
      by rewrite (Permutation_length (argsort_desc_perm _)), length_seq, length_fmap. }
    destruct (series_loc_covered sector (index (iloc row (argsort_desc row.*2))))
      as [secs Hsecs].
    { intros l (i & p & _ & Hi)%elem_of_index_iloc.
      apply (Hcov (l, p)), list_elem_of_lookup. by exists i. }
    exists (to_set secs). rewrite Hsecs. split; [done|].
    intros s. unfold to_set.
    rewrite elem_of_list_to_set, (proj2 (series_loc_Ok _ _ _ Hsecs)). split.
    + intros (l & (i & p & _ & Hl)%elem_of_index_iloc & Hs).
      exists l, p. split; [|done]. apply list_elem_of_lookup. by exists i.
    + intros (t & p & (i & Hi)%list_elem_of_lookup & Hs). exists t. split; [|done].
      apply elem_of_index_iloc. exists i, p. split; [|done].
      rewrite argsort_desc_perm. apply elem_of_seq.
      apply lookup_lt_Some in Hi. rewrite length_fmap. lia.
Qed.


(** The quiz tables with [top_n = 7], more than the five tickers. *)
Lemma date_top_industries_bounds_witness :
  (∀ S, date_top_industries quiz_prices quiz_sector "2013-07-09" 7 = Ok S →
     (size S ≤ 7 `min` length quiz_row)%nat ∧
     ∀ s, s ∈ S → ∃ t p, (t, p) ∈ quiz_row ∧ quiz_sector !! t = Some s) ∧
  (∃ S, date_top_industries quiz_prices quiz_sector "2013-07-09" 7 = Ok S ∧
        ∀ s, s ∈ S ↔ ∃ t p, (t, p) ∈ quiz_row ∧ quiz_sector !! t = Some s).
Proof.
  destruct (date_top_industries_bounds quiz_prices quiz_sector "2013-07-09" 7 quiz_row)
    as [Hbound Hall].
  - vm_compute. reflexivity.
  - split; [exact Hbound|]. apply Hall.
    + apply (bool_decide_unpack _). vm_compute. exact I.
    + simpl. lia.
Defined.

(** ** The quiz functions on the object store *)

Lemma eff_bind_Ok {S A B} (m : eff S A) (f : A → eff S B) s s' a :
  m s = (s', Ok a) → (m ≫= f) s = f a s'.
Proof. intros H. unfold mbind, eff_bind. by rewrite H. Qed.

Lemma eff_bind_Raise {S A B} (m : eff S A) (f : A → eff S B) s s' e :
  m s = (s', Raise e) → (m ≫= f) s = (s', Raise e).
Proof. intros H. unfold mbind, eff_bind. by rewrite H. Qed.

(** Allocation only adds an object. *)
Lemma alloc_spec (o : Heap.obj) (h : Heap.heap) :
  ∃ a, Heap.alloc o h = (<[a := o]> h, Ok a) ∧ h !! a = None.
Proof.
  exists (fresh (dom h)). split; [done|].
  apply not_elem_of_dom, is_fresh.
Qed.

Lemma method_Ok f a (h : Heap.heap) o o' :
  h !! a = Some o → f o = Ok o' →
  ∃ a' h', Heap.method f a h = (h', Ok a') ∧ h ⊆ h' ∧ h' !! a' = Some o'.
Proof.
  intros Ha Hf. unfold Heap.method. rewrite Ha, Hf.
  destruct (alloc_spec o' h) as (a' & -> & Hfresh).
  exists a', (<[a' := o']> h). split_and!; [done| |].
  - by apply insert_subseteq.
  - apply lookup_insert_eq.
Qed.

Lemma method_Raise f a (h : Heap.heap) o e :
  h !! a = Some o → f o = Raise e → Heap.method f a h = (h, Raise e).
Proof. intros Ha Hf. unfold Heap.method. by rewrite Ha, Hf. Qed.

Lemma method2_Ok f a b (h : Heap.heap) oa ob o' :
  h !! a = Some oa → h !! b = Some ob → f oa ob = Ok o' →
  ∃ a' h', Heap.method2 f a b h = (h', Ok a') ∧ h ⊆ h' ∧ h' !! a' = Some o'.
Proof.
  intros Ha Hb Hf. unfold Heap.method2. rewrite Ha, Hb, Hf.
  destruct (alloc_spec o' h) as (a' & -> & Hfresh).
  exists a', (<[a' := o']> h). split_and!; [done| |].
  - by apply insert_subseteq.
  - apply lookup_insert_eq.
Qed.

Lemma method2_Raise f a b (h : Heap.heap) oa ob e :
  h !! a = Some oa → h !! b = Some ob → f oa ob = Raise e →
  Heap.method2 f a b h = (h, Raise e).
Proof. intros Ha Hb Hf. unfold Heap.method2. by rewrite Ha, Hb, Hf. Qed.

(** One call of the body: take the successful step and keep what is
    known about the objects allocated so far. *)
Ltac heap_call a' h' Hsub Hnew :=
  lazymatch goal with
  | |- context [ (Heap.method ?f ?a ≫= ?k) ?h ] =>
      let Hrun := fresh "Hrun" in
      edestruct (method_Ok f a h) as (a' & h' & Hrun & Hsub & Hnew);
      [ eauto using lookup_weaken | reflexivity
      | rewrite (eff_bind_Ok _ _ _ _ _ Hrun); clear Hrun ]
  | |- context [ (Heap.method2 ?f ?a ?b ≫= ?k) ?h ] =>
      let Hrun := fresh "Hrun" in
      edestruct (method2_Ok f a b h) as (a' & h' & Hrun & Hsub & Hnew);
      [ eauto using lookup_weaken | eauto using lookup_weaken | reflexivity
      | rewrite (eff_bind_Ok _ _ _ _ _ Hrun); clear Hrun ]
  end.

Lemma generate_positions_run (h : Heap.heap) p prices :
  h !! p = Some (Heap.OFrameQ prices) →
  h ⊆ (Heap.generate_positions p h).1 ∧
  Heap.returned (Heap.generate_positions p h) = Ok (Heap.OFrameZ (generate_positions prices)).
Proof.
  intros Hp. unfold Heap.generate_positions.
  heap_call a1 h1 Hs1 Hn1. heap_call a2 h2 Hs2 Hn2. heap_call a3 h3 Hs3 Hn3.
  heap_call a4 h4 Hs4 Hn4. heap_call a5 h5 Hs5 Hn5. heap_call a6 h6 Hs6 Hn6.
  heap_call a7 h7 Hs7 Hn7.
  split.
  - simpl. by repeat (etrans; [eassumption|]).
  - unfold Heap.returned; simpl. by rewrite Hn7.
Qed.

Lemma date_top_industries_run (h : Heap.heap) p s prices sector date top_n :
  h !! p = Some (Heap.OFrameQ prices) →
  h !! s = Some (Heap.OMapping sector) →
  h ⊆ (Heap.date_top_industries p s date top_n h).1 ∧
  Heap.returned (Heap.date_top_industries p s date top_n h)
  = (S ← date_top_industries prices sector date top_n; Ok (Heap.OSet S)).
Proof.
  intros Hp Hs. unfold Heap.date_top_industries, date_top_industries.
  destruct (df_loc prices date) as [sel|e] eqn:Hloc; simpl.
  2: { rewrite (eff_bind_Raise _ _ h h e); [done|].
       eapply method_Raise; [done|]. simpl. by rewrite Hloc. }
  edestruct (method_Ok (Heap.obj_loc date) p h) as (a1 & h1 & Hrun & Hs1 & Hn1);
    [done | simpl; by rewrite Hloc |].
  rewrite (eff_bind_Ok _ _ _ _ _ Hrun); clear Hrun.
  destruct sel as [row|df]; simpl.
  2: { rewrite (eff_bind_Raise _ _ h1 h1 TypeError); [done|].
       eapply method_Raise; [done|]. done. }
  heap_call a2 h2 Hs2 Hn2. heap_call a3 h3 Hs3 Hn3.
  destruct (series_loc sector (index (nlargest top_n row))) as [secs|e] eqn:Hsecs; simpl.
  2: { rewrite (eff_bind_Raise _ _ h3 h3 e).
       - split; [|done]. simpl. by repeat (etrans; [eassumption|]).
       - eapply method2_Raise; [eauto using lookup_weaken | done |].
         simpl. by rewrite Hsecs. }
  edestruct (method2_Ok Heap.obj_series_loc s a3 h3) as (a4 & h4 & Hrun & Hs4 & Hn4);
    [eauto using lookup_weaken | done | simpl; by rewrite Hsecs |].
  rewrite (eff_bind_Ok _ _ _ _ _ Hrun); clear Hrun.
  heap_call a5 h5 Hs5 Hn5.
  split.
  - simpl. by repeat (etrans; [eassumption|]).
  - unfold Heap.returned; simpl. by rewrite Hn5.
Qed.

(** C8: the two functions, run on the object store, change no object
    that was there before the call (the price table and the sector table
    among them) and only add the objects they build; the value a call
    returns, or the exception it raises, is a function of the arguments,
    so a second call returns the same. *)
Theorem quiz_functions_pure (h : Heap.heap) (p s : Heap.addr) prices sector date top_n :
  h !! p = Some (Heap.OFrameQ prices) →
  h !! s = Some (Heap.OMapping sector) →
  let run1 := Heap.generate_positions p h in
  let run2 := Heap.generate_positions p run1.1 in
  let run3 := Heap.date_top_industries p s date top_n run2.1 in
  let run4 := Heap.date_top_industries p s date top_n run3.1 in
  (h ⊆ run1.1 ∧ run1.1 ⊆ run2.1 ∧ run2.1 ⊆ run3.1 ∧ run3.1 ⊆ run4.1) ∧
  (run4.1 !! p = Some (Heap.OFrameQ prices) ∧ run4.1 !! s = Some (Heap.OMapping sector)) ∧
  (Heap.returned run1 = Ok (Heap.OFrameZ (generate_positions prices)) ∧
   Heap.returned run2 = Heap.returned run1) ∧
  (Heap.returned run3
   = (S ← date_top_industries prices sector date top_n; Ok (Heap.OSet S)) ∧
   Heap.returned run4 = Heap.returned run3).
Proof.
  intros Hp Hs run1 run2 run3 run4.
  destruct (generate_positions_run h p prices Hp) as [Hsub1 Hret1].
  fold run1 in Hsub1, Hret1.
  assert (run1.1 !! p = Some (Heap.OFrameQ prices)) as Hp1 by eauto using lookup_weaken.
  assert (run1.1 !! s = Some (Heap.OMapping sector)) as Hs1 by eauto using lookup_weaken.
  destruct (generate_positions_run run1.1 p prices Hp1) as [Hsub2 Hret2].
  fold run2 in Hsub2, Hret2.
  assert (run2.1 !! p = Some (Heap.OFrameQ prices)) as Hp2 by eauto using lookup_weaken.
  assert (run2.1 !! s = Some (Heap.OMapping sector)) as Hs2 by eauto using lookup_weaken.
  destruct (date_top_industries_run run2.1 p s prices sector date top_n Hp2 Hs2)
    as [Hsub3 Hret3].
  fold run3 in Hsub3, Hret3.
  assert (run3.1 !! p = Some (Heap.OFrameQ prices)) as Hp3 by eauto using lookup_weaken.
  assert (run3.1 !! s = Some (Heap.OMapping sector)) as Hs3 by eauto using lookup_weaken.
  destruct (date_top_industries_run run3.1 p s prices sector date top_n Hp3 Hs3)
    as [Hsub4 Hret4].
  fold run4 in Hsub4, Hret4.
  split_and!; try done; try congruence; eauto using lookup_weaken.
Qed.

(** The quiz tables at addresses 0 and 1 of an otherwise empty store. *)
Lemma quiz_functions_pure_witness :
  let h : Heap.heap := {[ 0%nat := Heap.OFrameQ quiz_prices; 1%nat := Heap.OMapping quiz_sector ]} in
  let run1 := Heap.generate_positions 0%nat h in
  let run2 := Heap.generate_positions 0%nat run1.1 in
  let run3 := Heap.date_top_industries 0%nat 1%nat "2013-07-09" 3 run2.1 in
  let run4 := Heap.date_top_industries 0%nat 1%nat "2013-07-09" 3 run3.1 in
  (h ⊆ run1.1 ∧ run1.1 ⊆ run2.1 ∧ run2.1 ⊆ run3.1 ∧ run3.1 ⊆ run4.1) ∧
  (run4.1 !! 0%nat = Some (Heap.OFrameQ quiz_prices) ∧
   run4.1 !! 1%nat = Some (Heap.OMapping quiz_sector)) ∧
  (Heap.returned run1 = Ok (Heap.OFrameZ (generate_positions quiz_prices)) ∧
   Heap.returned run2 = Heap.returned run1) ∧
  (Heap.returned run3
   = (S ← date_top_industries quiz_prices quiz_sector "2013-07-09" 3; Ok (Heap.OSet S)) ∧
   Heap.returned run4 = Heap.returned run3).
Proof.
  apply (quiz_functions_pure _ 0%nat 1%nat quiz_prices quiz_sector "2013-07-09" 3);
    reflexivity.
Defined.

(** ** Loading a state dict and the checkpoint round trip *)

Local Open Scope nat_scope.

Lemma hidden_widths (input_size : nat) (hidden : list nat) :
  out_features <$> zip_with mkLinear (input_size :: hidden) hidden = hidden.
Proof.
  revert input_size. induction hidden as [|w hidden IH]; intros input_size; [done|].
  change (zip_with mkLinear (input_size :: w :: hidden) (w :: hidden))
    with (mkLinear input_size w :: zip_with mkLinear (w :: hidden) hidden).
  by rewrite fmap_cons, IH.
Qed.

Lemma Network_hidden_widths init input_size output_size hidden :
  out_features <$> hidden_layers (Network init input_size output_size hidden) = hidden.
Proof. apply hidden_widths. Qed.

Lemma linear_parameters_shapes init init' name l :
  prod_map id tshape <$> linear_parameters init name l
  = prod_map id tshape <$> linear_parameters init' name l.
Proof. done. Qed.

Lemma hidden_parameters_shapes init init' (name : nat → string) (layers : list Linear) :
  prod_map id tshape <$> mjoin (imap (λ i, linear_parameters init (name i)) layers)
  = prod_map id tshape <$> mjoin (imap (λ i, linear_parameters init' (name i)) layers).
Proof.
  revert name. induction layers as [|l layers IH]; intros name; [done|].
  rewrite !imap_cons. csimpl. do 2 f_equal. apply (IH (name ∘ S)).
Qed.

(** The dimensions of a network's parameters do not depend on the
    initial values. *)
Lemma Network_shapes init init' input_size output_size hidden :
  tshape <$> parameters (Network init input_size output_size hidden)
  = tshape <$> parameters (Network init' input_size output_size hidden).
Proof.
  unfold Network; simpl.
  rewrite <- !list_to_map_fmap, !fmap_app.
  by rewrite (hidden_parameters_shapes init init').
Qed.

Lemma Network_same_architecture init init' input_size output_size hidden :
  same_architecture (Network init input_size output_size hidden)
    (Network init' input_size output_size hidden).
Proof. split_and!; [done | done | apply Network_shapes]. Qed.

Lemma shapes_lookup (ps sd : gmap string Tensor) name :
  tshape <$> ps = tshape <$> sd →
  tshape <$> ps !! name = tshape <$> sd !! name.
Proof. intros H. by rewrite <- !lookup_fmap, H. Qed.

(** With the model's keys and dimensions, loading succeeds and the
    parameters become the loaded tensors. *)
Lemma load_state_dict_Ok (model : Module) (sd : gmap string Tensor) :
  tshape <$> parameters model = tshape <$> sd →
  load_state_dict model sd = Ok (mkModule (hidden_layers model) (output model) sd).
Proof.
  intros Hsh. unfold load_state_dict.
  assert (dom (parameters model) = dom sd) as Hdom.
  { by rewrite <- (dom_fmap_L tshape (parameters model)), Hsh, dom_fmap_L. }
  assert (filter (λ kv, size_mismatch model kv.1 kv.2 = true) sd = ∅) as Hfil.
  { apply map_empty; intros name. apply map_lookup_filter_None.
    destruct (sd !! name) as [t|] eqn:Ht; [right|by left].
    intros ? [= <-]; simpl. unfold size_mismatch.
    pose proof (shapes_lookup _ _ name Hsh) as Hname. rewrite Ht in Hname.
    destruct (parameters model !! name) as [p|]; [|done].
    simpl in Hname. injection Hname as Hname.
    intros Hb%bool_decide_eq_true. by apply Hb. }
  rewrite Hfil, Hdom, difference_diag_L, dom_empty_L, elements_empty.
  rewrite decide_True by done. do 2 f_equal.
  apply map_eq; intros name. rewrite map_lookup_zip_with.
  pose proof (shapes_lookup _ _ name Hsh) as Hname.
  destruct (parameters model !! name) as [p|], (sd !! name) as [t|]; simplify_eq/=; [|done].
  destruct t; simpl in *. by subst.
Qed.

(** A parameter whose dimensions differ makes loading fail, and the error
    names it. *)
Lemma load_state_dict_mismatch (model : Module) (sd : gmap string Tensor) name p t :
  parameters model !! name = Some p →
  sd !! name = Some t →
  tshape p ≠ tshape t →
  ∃ missing unexpected mismatched,
    load_state_dict model sd = Raise (RuntimeError missing unexpected mismatched) ∧
    name ∈ mismatched.
Proof.
  intros Hp Ht Hne. unfold load_state_dict.
  set (mismatched := elements (dom (filter (λ kv, size_mismatch model kv.1 kv.2 = true) sd))).
  assert (name ∈ mismatched) as Hin.
  { apply elem_of_elements, elem_of_dom. exists t.
    apply map_lookup_filter_Some. split; [done|]. simpl.
    unfold size_mismatch. rewrite Hp. by apply bool_decide_eq_true. }
  rewrite decide_False.
  - by eexists _, _, _.
  - intros (_ & _ & Hnil). rewrite Hnil in Hin. by apply elem_of_nil in Hin.
Qed.

(** C5: loading a state dict fails with the library's error, naming the
    parameter, whenever a parameter's dimensions in the model differ from
    those in the checkpoint; it succeeds, the parameters taking the
    checkpoint's values, when the keys and all dimensions match; and
    [load_checkpoint] hands the error on to its caller. *)
Theorem load_state_dict_shapes (model : Module) (sd : gmap string Tensor) :
  (∀ name p t,
     parameters model !! name = Some p → sd !! name = Some t → tshape p ≠ tshape t →
     ∃ missing unexpected mismatched,
       load_state_dict model sd = Raise (RuntimeError missing unexpected mismatched) ∧
       name ∈ mismatched) ∧
  (dom sd = dom (parameters model) →
   (∀ name p t,
      parameters model !! name = Some p → sd !! name = Some t → tshape p = tshape t) →
   ∃ loaded,
     load_state_dict model sd = Ok loaded ∧
     parameters loaded = sd ∧
     hidden_layers loaded = hidden_layers model ∧
     output loaded = output model) ∧
  (∀ init path fs c e,
     torch_load path fs = Ok (PCheckpoint c) →
     load_state_dict
       (Network init (ck_input_size c) (ck_output_size c) (ck_hidden_layers c))
       (ck_state_dict c) = Raise e →
     load_checkpoint init path fs = Raise e).
Proof.
  split_and!.
  - intros name p t. apply load_state_dict_mismatch.
  - intros Hdom Hshape. eexists. split; [apply load_state_dict_Ok | done].
    apply map_eq; intros name. rewrite !lookup_fmap.
    destruct (parameters model !! name) as [p|] eqn:Hp, (sd !! name) as [t|] eqn:Ht; simpl.
    + f_equal. by eapply Hshape.
    + apply elem_of_dom_2 in Hp. rewrite <- Hdom in Hp.
      apply elem_of_dom in Hp as [? ?]. congruence.
    + apply elem_of_dom_2 in Ht. rewrite Hdom in Ht.
      apply elem_of_dom in Ht as [? ?]. congruence.
    + done.
  - intros init path fs c e Hload Herr. unfold load_checkpoint. by rewrite Hload.
Qed.

(** A two-parameter model given a weight of other dimensions. *)
Lemma load_state_dict_shapes_witness :
  ∃ missing unexpected mismatched,
    load_state_dict
      (mkModule [] (mkLinear 3 2)
         {[ "output.weight" := mkTensor [2; 3] []; "output.bias" := mkTensor [2] [] ]})
      {[ "output.weight" := mkTensor [2; 5] []; "output.bias" := mkTensor [2] [] ]}
    = Raise (RuntimeError missing unexpected mismatched) ∧
    "output.weight" ∈ mismatched.
Proof.
  eapply (proj1 (load_state_dict_shapes _ _) "output.weight");
    [reflexivity | reflexivity | simpl; by intros [=]].
Defined.

(** The failing cell of the notebook: a model with hidden widths 400, 200,
    100 is given the state dict of one with widths 512, 256, 128. *)
Example load_state_dict_wrong_sizes init init' :
  ∃ missing unexpected mismatched,
    load_state_dict (Network init 784 10 [400; 200; 100])
      (state_dict (Network init' 784 10 [512; 256; 128]))
    = Raise (RuntimeError missing unexpected mismatched) ∧
    "hidden_layers.0.weight" ∈ mismatched.
Proof.
  eapply (load_state_dict_mismatch _ _ "hidden_layers.0.weight").
  - unfold Network; simpl. reflexivity.
  - unfold state_dict, Network; simpl. reflexivity.
  - simpl. by intros [=].
Qed.

(** Loading a checkpoint that records the sizes a network was built with
    and its state dict returns that network. *)
Lemma load_checkpoint_round_trip init init' input_size output_size hidden
    (model : Module) path fs :
  same_architecture model (Network init input_size output_size hidden) →
  load_checkpoint init' path
    (torch_save
       (PCheckpoint
          (mkCheckpoint input_size output_size (out_features <$> hidden_layers model)
             (state_dict model)))
       path fs)
  = Ok model.
Proof.
  intros (Hhid & Hout & Hsh).
  unfold load_checkpoint, torch_load, torch_save.
  rewrite lookup_insert_eq; simpl.
  replace (out_features <$> hidden_layers model) with hidden.
  2: { by rewrite Hhid, Network_hidden_widths. }
  rewrite load_state_dict_Ok.
  - destruct model as [hl out ps]; simpl in *. by subst.
  - unfold state_dict. by rewrite Hsh, (Network_shapes init init').
Qed.

(** C3: a network with 784 inputs and 10 outputs, as the notebook builds
    it, with any hidden widths and whatever values its parameters have
    taken since, is what [load_checkpoint] returns from the file the
    checkpoint cell saved: the same layers and the same parameter values.
    The same holds for other sizes when the mapping records them. *)
Theorem checkpoint_round_trip init init' hidden (model : Module) path fs :
  same_architecture model (Network init 784 10 hidden) →
  load_checkpoint init' path (torch_save (PCheckpoint (checkpoint model)) path fs)
  = Ok model ∧
  ∀ input_size output_size widths (other : Module),
    same_architecture other (Network init input_size output_size widths) →
    load_checkpoint init' path
      (torch_save
         (PCheckpoint
            (mkCheckpoint input_size output_size (out_features <$> hidden_layers other)
               (state_dict other)))
         path fs)
    = Ok other.
Proof.
  intros Harch. split.
  - by apply (load_checkpoint_round_trip init init' 784 10 hidden).
  - intros input_size output_size widths other.
    apply load_checkpoint_round_trip.
Qed.

(** The notebook's model, with arbitrary parameter values. *)
Lemma checkpoint_round_trip_witness :
  load_checkpoint (λ _ _, []) "checkpoint.pth"
    (torch_save
       (PCheckpoint (checkpoint (Network (λ _ _, [1%Qc]) 784 10 [400; 200; 100])))
       "checkpoint.pth" ∅)
  = Ok (Network (λ _ _, [1%Qc]) 784 10 [400; 200; 100]).
Proof.
  apply (checkpoint_round_trip (λ _ _, []) (λ _ _, []) [400; 200; 100]).
  apply Network_same_architecture.
Defined.

(** ** Gradients and the training loop *)

Lemma tensor_add_zeros_like (z g : Tensor) :
  tensor_like z g → tensor_add (zeros_like z) g = g.
Proof.
  destruct z as [sz dz], g as [sg dg]; unfold tensor_like, tensor_add; simpl.
  intros [-> Hlen]. f_equal.
  revert dg Hlen. induction dz as [|x dz IH]; intros [|y dg] Hlen; simplify_eq/=; [done|].
  f_equal; [apply Qcplus_0_l | by apply IH].
Qed.

Lemma tensor_like_trans_r (a b p : Tensor) :
  tensor_like a p → tensor_like b p → tensor_like a b.
Proof. intros [? ?] [? ?]. split; congruence. Qed.

Section training_facts.

Context {sample activations : Type}.
Variable forward : gmap string Tensor → list sample → activations.
Variable criterion : activations → list sample → Qc.
Variable autograd : gmap string Tensor → list sample → gmap string Tensor.

(** What the gradient store holds for one parameter after a reset and
    one backward pass: the gradient of that pass. *)
Lemma reset_then_backward (st : trainer (sample := sample)) (g : gmap string Tensor) name :
  gradient_for (params st) g →
  grads_ok st →
  accumulate (zeros_like <$> grads st) g !! name = g !! name.
Proof.
  intros [Hdom Hsh] Hok. unfold accumulate.
  rewrite lookup_union_with, lookup_fmap.
  destruct (grads st !! name) as [t|] eqn:Ht; simpl; [|by destruct (g !! name)].
  destruct (Hok name t Ht) as (p & Hp & Htp).
  assert (is_Some (g !! name)) as [a Ha].
  { apply elem_of_dom. rewrite Hdom. by apply elem_of_dom_2 in Hp. }
  rewrite Ha; simpl. f_equal. apply tensor_add_zeros_like.
  eapply tensor_like_trans_r; [done|]. by eapply Hsh.
Qed.


(** One pass of the loop body makes the five calls, in order, and
    nothing else. *)
Lemma training_pass_run lr running_loss (batch : list sample) (st : trainer) :
  ∃ st' loss,
    training_pass forward criterion autograd lr running_loss batch st = (st', Ok loss) ∧
    calls st' = calls st ++ pass_calls batch ∧
    printed st' = printed st.
Proof.
  eexists _, _. split; [reflexivity|]. simpl.
  by rewrite <- !(assoc_L (++)).
Qed.

Lemma inner_loop_run lr (batches : list (list sample)) running_loss (st : trainer) :
  ∃ st' total,
    for_each (training_pass forward criterion autograd lr) batches running_loss st
    = (st', Ok total) ∧
    calls st' = calls st ++ (batches ≫= pass_calls) ∧
    printed st' = printed st.
Proof.
  revert running_loss st. induction batches as [|batch batches IH]; intros running_loss st.
  - eexists _, _. split; [reflexivity|]. csimpl. by rewrite (right_id_L [] (++)).
  - destruct (training_pass_run lr running_loss batch st) as (st1 & loss & Hrun & Hc1 & Hp1).
    destruct (IH loss st1) as (st2 & total & Hrest & Hc2 & Hp2).
    exists st2, total. split_and!.
    + simpl. by rewrite (eff_bind_Ok _ _ _ _ _ Hrun).
    + rewrite Hc2, Hc1. csimpl. by rewrite <- !(assoc_L (++)).
    + congruence.
Qed.

Lemma epoch_run lr (trainloader : nat → list (list sample)) e (st : trainer) :
  trainloader e ≠ [] →
  ∃ st',
    epoch forward criterion autograd lr trainloader () e st = (st', Ok ()) ∧
    calls st' = calls st ++ (trainloader e ≫= pass_calls).
Proof.
  intros Hne.
  destruct (inner_loop_run lr (trainloader e) 0%Qc st) as (st1 & total & Hrun & Hc & _).
  unfold epoch. rewrite (eff_bind_Ok _ _ _ _ _ Hrun).
  unfold print_loss. rewrite decide_False.
  - eexists. split; [reflexivity|]. done.
  - by destruct (trainloader e).
Qed.

Lemma epochs_run lr (trainloader : nat → list (list sample)) first n (st : trainer) :
  (∀ e, trainloader e ≠ []) →
  ∃ st',
    for_each (epoch forward criterion autograd lr trainloader) (seq first n) () st
    = (st', Ok ()) ∧
    calls st' = calls st ++ (seq first n ≫= λ e, trainloader e ≫= pass_calls).
Proof.
  intros Hne. revert first st. induction n as [|n IH]; intros first st.
  - eexists. split; [reflexivity|]. csimpl. by rewrite (right_id_L [] (++)).
  - destruct (epoch_run lr trainloader first st (Hne first)) as (st1 & Hrun & Hc1).
    destruct (IH (S first) st1) as (st2 & Hrest & Hc2).
    exists st2. split.
    + simpl. by rewrite (eff_bind_Ok _ _ _ _ _ Hrun).
    + rewrite Hc2, Hc1. csimpl. by rewrite <- !(assoc_L (++)).
Qed.

Lemma forwarded_pass_calls (batches : list (list sample)) :
  forwarded (batches ≫= pass_calls) = mjoin batches.
Proof.
  unfold forwarded. induction batches as [|batch batches IH]; [done|].
  csimpl. by f_equal.
Qed.

End training_facts.

Lemma toy_autograd_gradient ps batch : gradient_for ps (toy_autograd ps batch).
Proof.
  split; [apply dom_fmap_L|].
  intros name t p Ht Hp. unfold toy_autograd in Ht.
  rewrite lookup_fmap, Hp in Ht. injection Ht as <-.
  split; simpl; [done | by rewrite length_fmap].
Qed.



(** ** More on [generate_positions] *)

(** Selecting rows commutes with a function on the cells. *)

Lemma filter_key_fmap {A B} (g : A → B) (key : label) (idx : list label) (vals : list A) :
  filter (λ r, r.1 = key) (zip idx (g <$> vals))
  = prod_map id g <$> filter (λ r, r.1 = key) (zip idx vals).
Proof.
  revert vals. induction idx as [|l idx IH]; intros [|v vals]; csimpl; try done.
  rewrite !filter_cons; simpl. rewrite IH. by case_decide.
Qed.

Lemma zip_fmap_r {A B} (g : A → B) (ls : list label) (vals : list A) :
  zip ls (g <$> vals) = prod_map id g <$> zip ls vals.
Proof.
  revert vals. induction ls as [|l ls IH]; intros [|v vals]; csimpl; try done.
  by rewrite IH.
Qed.

Lemma df_loc_map {A B} (f : A → B) (df : DataFrame A) (key : label) :
  df_loc (df_map f df) key = (x ← df_loc df key; mret (sel_map f x)).
Proof.
  unfold df_loc, df_map; simpl. rewrite filter_key_fmap.
  destruct (filter _ (zip (df_index df) (df_values df))) as [|r [|r' rs]]; csimpl.
  - done.
  - by rewrite zip_fmap_r.
  - unfold mret, result_ret, df_map; simpl. do 2 f_equal.
    rewrite <- !list_fmap_compose. f_equal; do 2 f_equal; by apply list_fmap_ext.
Qed.

(** One cell of [generate_positions]. *)
Lemma position_monotone (p q : Qc) :
  (p ≤ q)%Qc →
  (30 * indicator (Qc_of_Z 50 < p)%Qc + -10 * indicator (p < Qc_of_Z 20)%Qc
   ≤ 30 * indicator (Qc_of_Z 50 < q)%Qc + -10 * indicator (q < Qc_of_Z 20)%Qc)%Z.
Proof.
  intros Hpq. unfold indicator.
  destruct (decide (Qc_of_Z 50 < p)%Qc) as [Hp|Hp], (decide (Qc_of_Z 50 < q)%Qc) as [Hq|Hq],
    (decide (p < Qc_of_Z 20)%Qc) as [Hp'|Hp'], (decide (q < Qc_of_Z 20)%Qc) as [Hq'|Hq'];
    try lia; exfalso;
    first [ apply Hq; by eapply Qclt_le_trans | apply Hp'; by eapply Qcle_lt_trans ].
Qed.

(** X1: the position never falls when prices rise: on two price tables
    of one layout, if every price of the second is at least the price of
    the first in the same cell, so is every position. *)
Theorem generate_positions_monotone (prices prices' : DataFrame Qc) :
  Forall2 (Forall2 Qcle) (df_values prices) (df_values prices') →
  Forall2 (Forall2 Z.le)
    (df_values (generate_positions prices)) (df_values (generate_positions prices')).
Proof.
  intros H. rewrite !generate_positions_eq. unfold df_map; simpl.
  apply Forall2_fmap. eapply Forall2_impl; [exact H|]. intros row row' Hrow; simpl.
  apply Forall2_fmap. eapply Forall2_impl; [exact Hrow|]. intros p q. apply position_monotone.
Qed.

(** The quiz prices and ten times the quiz prices. *)
Lemma generate_positions_monotone_witness :
  Forall2 (Forall2 Z.le)
    (df_values (generate_positions quiz_prices))
    (df_values (generate_positions (df_scale (Qc_of_Z 10) quiz_prices))).
Proof.
  apply (generate_positions_monotone quiz_prices (df_scale (Qc_of_Z 10) quiz_prices)).
  apply (bool_decide_unpack _). vm_compute. exact I.
Defined.

(** X2: the positions of a date depend on that date's prices only:
    selecting a date from the positions gives the rule applied to what
    the same selection gives on the prices, and fails as that selection
    fails. *)
Theorem generate_positions_loc (prices : DataFrame Qc) (date : label) :
  df_loc (generate_positions prices) date
  = (row ← df_loc prices date;
     mret (sel_map
             (λ p, 30 * indicator (Qc_of_Z 50 < p)%Qc + -10 * indicator (p < Qc_of_Z 20)%Qc)%Z
             row)).
Proof. by rewrite generate_positions_eq, df_loc_map. Qed.

(** ** Row selection *)

Lemma filter_key_absent {A} (key : label) (l : list (label * A)) :
  key ∉ l.*1 → filter (λ r, r.1 = key) l = [].
Proof.
  induction l as [|[k v] l IH]; csimpl; [done|].
  intros Hk. apply not_elem_of_cons in Hk as [Hne Hk].
  rewrite filter_cons; simpl. rewrite decide_False by done. by apply IH.
Qed.

Lemma filter_key_unique {A} (key : label) (l : list (label * A)) i v :
  NoDup l.*1 → l !! i = Some (key, v) → filter (λ r, r.1 = key) l = [(key, v)].
Proof.
  revert i. induction l as [|[k w] l IH]; intros i; csimpl; [done|].
  intros [Hk Hnd]%NoDup_cons Hi. rewrite filter_cons; simpl.
  destruct i as [|i]; simpl in Hi.
  - injection Hi as -> ->. rewrite decide_True by done.
    by rewrite filter_key_absent.
  - rewrite decide_False; [by eapply IH|].
    intros ->. apply Hk, list_elem_of_fmap. exists (key, v). split; [done|].
    apply list_elem_of_lookup. by exists i.
Qed.

Lemma filter_key_twice {A} (key : label) (l : list (label * A)) i j v w :
  (i < j)%nat → l !! i = Some (key, v) → l !! j = Some (key, w) →
  ∃ a b rest, filter (λ r, r.1 = key) l = a :: b :: rest.
Proof.
  revert i j. induction l as [|[k u] l IH]; intros i j Hij Hi Hj; [done|].
  rewrite filter_cons; simpl.
  destruct j as [|j]; [lia|]. simpl in Hj.
  destruct i as [|i]; simpl in Hi.
  - injection Hi as -> ->. rewrite decide_True by done.
    assert ((key, w) ∈ filter (λ r, r.1 = key) l) as Hin.
    { apply list_elem_of_filter. split; [done|]. apply list_elem_of_lookup. by exists j. }
    destruct (filter (λ r, r.1 = key) l) as [|b rest]; [by apply elem_of_nil in Hin|].
    by eexists _, _, _.
  - destruct (IH i j) as (a & b & rest & ->); [lia | done | done |].
    case_decide; by eexists _, _, _.
Qed.

Lemma NoDup_fst_zip {A} (idx : list label) (vals : list A) :
  NoDup idx → NoDup (zip idx vals).*1.
Proof.
  revert vals. induction idx as [|l idx IH]; intros [|v vals]; csimpl;
    try (intros; by apply NoDup_nil).
  intros [Hl Hnd]%NoDup_cons. apply NoDup_cons. split; [|by apply IH].
  intros (r & -> & Hr)%list_elem_of_fmap. apply Hl.
  destruct r as [k x]. apply elem_of_zip_l in Hr. done.
Qed.

Lemma lookup_zip_Some {A} (idx : list label) (vals : list A) i l v :
  idx !! i = Some l → vals !! i = Some v → zip idx vals !! i = Some (l, v).
Proof. intros Hl Hv. apply lookup_zip_with_Some. by exists l, v. Qed.

Lemma df_loc_absent {A} (df : DataFrame A) (key : label) :
  key ∉ df_index df → df_loc df key = Raise (KeyError key).
Proof.
  intros Hkey. unfold df_loc. rewrite filter_key_absent; [done|].
  intros (r & -> & Hr)%list_elem_of_fmap. apply Hkey.
  destruct r as [k x]. by apply elem_of_zip_l in Hr.
Qed.

Lemma df_loc_unique {A} (df : DataFrame A) (key : label) i row :
  NoDup (df_index df) →
  df_index df !! i = Some key → df_values df !! i = Some row →
  df_loc df key = Ok (SelRow (zip (df_columns df) row)).
Proof.
  intros Hnd Hi Hrow. unfold df_loc.
  by rewrite (filter_key_unique key _ i row (NoDup_fst_zip _ _ Hnd)
                (lookup_zip_Some _ _ _ _ _ Hi Hrow)).
Qed.

Lemma df_loc_duplicated {A} (df : DataFrame A) (key : label) i j row row' :
  i ≠ j →
  df_index df !! i = Some key → df_values df !! i = Some row →
  df_index df !! j = Some key → df_values df !! j = Some row' →
  ∃ rows, df_loc df key = Ok (SelFrame rows) ∧ df_columns rows = df_columns df.
Proof.
  intros Hij Hi Hrow Hj Hrow'. unfold df_loc.
  pose proof (lookup_zip_Some _ _ _ _ _ Hi Hrow) as Hzi.
  pose proof (lookup_zip_Some _ _ _ _ _ Hj Hrow') as Hzj.
  destruct (decide (i < j)%nat).
  - destruct (filter_key_twice key _ i j row row' ltac:(done) Hzi Hzj)
      as (a & b & rest & ->).
    by eexists.
  - destruct (filter_key_twice key _ j i row' row ltac:(lia) Hzj Hzi)
      as (a & b & rest & ->).
    by eexists.
Qed.

(** X3: what [df.loc[key]] selects.  A label that is not in the index
    raises [KeyError] with the label; with an index free of duplicates,
    the label of row [i] selects that row as a Series over the columns;
    a label that two rows carry selects a frame, not a row. *)
Theorem df_loc_spec {A} (df : DataFrame A) (key : label) :
  (key ∉ df_index df → df_loc df key = Raise (KeyError key)) ∧
  (∀ i row,
     NoDup (df_index df) →
     df_index df !! i = Some key → df_values df !! i = Some row →
     df_loc df key = Ok (SelRow (zip (df_columns df) row))) ∧
  (∀ i j row row',
     i ≠ j →
     df_index df !! i = Some key → df_values df !! i = Some row →
     df_index df !! j = Some key → df_values df !! j = Some row' →
     ∃ rows, df_loc df key = Ok (SelFrame rows) ∧ df_columns rows = df_columns df).
Proof.
  split_and!;
    [apply df_loc_absent | intros i row; apply df_loc_unique
     | intros i j row row'; apply df_loc_duplicated].
Qed.

(** The quiz table, and a table with one date twice. *)
Lemma df_loc_spec_witness :
  df_loc quiz_prices "2013-07-10" = Raise (KeyError "2013-07-10") ∧
  df_loc quiz_prices "2013-07-09" = Ok (SelRow quiz_row) ∧
  ∃ rows,
    df_loc (mkDataFrame ["2013-07-08"; "2013-07-08"] ["A"] [[1%Qc]; [2%Qc]]) "2013-07-08"
    = Ok (SelFrame rows) ∧
    df_columns rows = ["A"].
Proof.
  split_and!.
  - apply (proj1 (df_loc_spec quiz_prices "2013-07-10")).
    apply (bool_decide_unpack _). vm_compute. exact I.
  - apply (proj1 (proj2 (df_loc_spec quiz_prices "2013-07-09")) 1 (Qc_of_Z <$> [5; 3; 6; 7; 5]%Z)).
    + apply (bool_decide_unpack _). vm_compute. exact I.
    + reflexivity.
    + reflexivity.
  - apply (proj2 (proj2 (df_loc_spec
             (mkDataFrame ["2013-07-08"; "2013-07-08"] ["A"] [[1%Qc]; [2%Qc]]) "2013-07-08"))
             0 1 [1%Qc] [2%Qc]); [lia | reflexivity..].
Defined.

(** ** Errors and orderings of [date_top_industries] *)

Lemma date_top_industries_Ok_inv prices sector date top_n S :
  date_top_industries prices sector date top_n = Ok S →
  ∃ row secs,
    df_loc prices date = Ok (SelRow row) ∧
    series_loc sector (index (nlargest top_n row)) = Ok secs ∧
    S = to_set secs.
Proof.
  unfold date_top_industries.
  destruct (df_loc prices date) as [[row|df]|e]; csimpl; [|done..].
  destruct (series_loc sector _) as [secs|e] eqn:Hsecs; csimpl; [|done].
  intros [= <-]. by exists row, secs.
Qed.

(** X4: the dates [date_top_industries] fails on, whatever the sector
    mapping and [top_n]: a date that is not in the index raises
    [KeyError] with the date, a date that two rows carry raises
    [TypeError] (the frame's [nlargest] lacks its [columns] argument), and
    a set is returned for dates of the index only. *)
Theorem date_top_industries_date_errors prices sector date top_n :
  (date ∉ df_index prices →
   date_top_industries prices sector date top_n = Raise (KeyError date)) ∧
  (∀ i j row row',
     i ≠ j →
     df_index prices !! i = Some date → df_values prices !! i = Some row →
     df_index prices !! j = Some date → df_values prices !! j = Some row' →
     date_top_industries prices sector date top_n = Raise TypeError) ∧
  (∀ S, date_top_industries prices sector date top_n = Ok S →
        date ∈ df_index prices).
Proof.
  split_and!.
  - intros Hd. unfold date_top_industries.
    by rewrite (df_loc_absent prices date Hd).
  - intros i j row row' Hij Hi Hrow Hj Hrow'. unfold date_top_industries.
    destruct (df_loc_duplicated prices date i j row row' Hij Hi Hrow Hj Hrow')
      as (rows & -> & _).
    done.
  - intros S (row & secs & Hloc & _)%date_top_industries_Ok_inv.
    destruct (decide (date ∈ df_index prices)) as [|Hd]; [done|].
    by rewrite (df_loc_absent prices date Hd) in Hloc.
Qed.

(** The quiz table, and a table with one date twice. *)
Lemma date_top_industries_date_errors_witness :
  date_top_industries quiz_prices quiz_sector "2013-07-10" 3 = Raise (KeyError "2013-07-10") ∧
  date_top_industries
    (mkDataFrame ["2013-07-08"; "2013-07-08"] ["A"] [[1%Qc]; [2%Qc]]) quiz_sector
    "2013-07-08" 3 = Raise TypeError ∧
  "2013-07-09" ∈ df_index quiz_prices.
Proof.
  split_and!.
  - apply (proj1 (date_top_industries_date_errors quiz_prices quiz_sector "2013-07-10" 3)).
    apply (bool_decide_unpack _). vm_compute. exact I.
  - apply (proj1 (proj2 (date_top_industries_date_errors
             (mkDataFrame ["2013-07-08"; "2013-07-08"] ["A"] [[1%Qc]; [2%Qc]]) quiz_sector
             "2013-07-08" 3)) 0 1 [1%Qc] [2%Qc]); [lia | reflexivity..].
  - apply (proj2 (proj2 (date_top_industries_date_errors quiz_prices quiz_sector
             "2013-07-09" 3)) {[ "Utilities"; "Real Estate" ]}).
    vm_compute. reflexivity.
Defined.

Lemma series_loc_app (sector : gmap label string) l1 l2 s :
  series_loc sector (l1 ++ l2) = Ok s →
  ∃ s1 s2, series_loc sector l1 = Ok s1 ∧ series_loc sector l2 = Ok s2 ∧ s = s1 ++ s2.
Proof.
  revert s. induction l1 as [|l l1 IH]; intros s; simpl.
  - intros Hs. by exists [], s.
  - destruct (sector !! l) as [v|]; [|done].
    destruct (series_loc sector (l1 ++ l2)) as [rest|e]; csimpl; [|done].
    intros [= <-]. destruct (IH rest eq_refl) as (s1 & s2 & -> & -> & ->).
    by exists ((l, v) :: s1), s2.
Qed.

Lemma nlargest_le_app (row : Series Qc) n m :
  n ≤ m → ∃ more, index (nlargest m row) = index (nlargest n row) ++ more.
Proof.
  intros Hnm. unfold nlargest, iloc, index.
  rewrite <- (take_drop n (take m (argsort_desc row.*2))).
  rewrite take_take, Nat.min_l by done.
  rewrite omap_app, fmap_app. by eexists.
Qed.

(** X5: asking for fewer tickers never adds a sector: when the function
    returns for [m], it returns for every [n ≤ m], a subset. *)
Theorem date_top_industries_mono prices sector date n m S_m :
  n ≤ m →
  date_top_industries prices sector date m = Ok S_m →
  ∃ S_n, date_top_industries prices sector date n = Ok S_n ∧ S_n ⊆ S_m.
Proof.
  intros Hnm (row & secs & Hloc & Hsecs & ->)%date_top_industries_Ok_inv.
  destruct (nlargest_le_app row n m Hnm) as [more Hmore].
  rewrite Hmore in Hsecs.
  apply series_loc_app in Hsecs as (s1 & s2 & Hs1 & _ & ->).
  exists (to_set s1). split.
  - rewrite (date_top_industries_row _ _ _ _ _ Hloc).
    change (iloc row (take n (argsort_desc row.*2))) with (nlargest n row).
    by rewrite Hs1.
  - unfold to_set. intros s. rewrite !elem_of_list_to_set, fmap_app, elem_of_app. by left.
Qed.

(** The quiz example with one ticker instead of three. *)
Lemma date_top_industries_mono_witness :
  ∃ S_n, date_top_industries quiz_prices quiz_sector "2013-07-09" 1 = Ok S_n ∧
         S_n ⊆ ({[ "Utilities"; "Real Estate" ]} : gset string).
Proof.
  apply (date_top_industries_mono quiz_prices quiz_sector "2013-07-09" 1 3).
  - lia.
  - vm_compute. reflexivity.
Defined.

(** The first of the largest prices of a row is among any non-empty top. *)
Lemma is_top_n_best (row : Series Qc) n top i t p :
  is_top_n row n top → 0 < n →
  row !! i = Some (t, p) →
  (∀ j tj pj, row !! j = Some (tj, pj) → (pj < p)%Qc ∨ (pj = p ∧ i ≤ j)) →
  i ∈ top.
Proof.
  intros (Hnd & Hlen & Hlt & Hb) Hn Hi Hbest.
  destruct (decide (i ∈ top)) as [|Hni]; [done|]. exfalso.
  destruct top as [|k top].
  { simpl in Hlen. apply lookup_lt_Some in Hi. lia. }
  assert (k ∈ k :: top) as Hk by by left.
  destruct (lookup_lt_is_Some_2 row k (Hlt k Hk)) as [[tk pk] Hrk].
  assert (k ≠ i) as Hki by (intros ->; done).
  destruct (Hb k i tk pk t p Hk Hni Hrk Hi) as [H1 | [-> H1]],
    (Hbest k tk pk Hrk) as [H2 | [H2 H2']].
  - by destruct (Qclt_not_eq p p (Qclt_trans _ _ _ H1 H2)).
  - subst. by destruct (Qclt_not_eq p p).
  - by destruct (Qclt_not_eq pk pk).
  - lia.
Qed.

(** X6: with [top_n] at least 1, the sector of the best performer (the
    first ticker, in column order, with the largest price of the row) is
    in the returned set. *)
Theorem date_top_industries_best prices sector date top_n row S i t p s :
  df_loc prices date = Ok (SelRow row) →
  date_top_industries prices sector date top_n = Ok S →
  0 < top_n →
  row !! i = Some (t, p) →
  (∀ j tj pj, row !! j = Some (tj, pj) → (pj < p)%Qc ∨ (pj = p ∧ i ≤ j)) →
  sector !! t = Some s →
  s ∈ S.
Proof.
  intros Hloc HS Hn Hi Hbest Hs.
  apply date_top_industries_Ok_inv in HS as (row' & secs & Hloc' & Hsecs & ->).
  rewrite Hloc in Hloc'. injection Hloc' as <-.
  unfold to_set. rewrite elem_of_list_to_set, (proj2 (series_loc_Ok _ _ _ Hsecs)).
  exists t. split; [|done]. apply elem_of_index_iloc. exists i, p. split; [|done].
  by apply (is_top_n_best row top_n _ i t p (nlargest_is_top_n row top_n)).
Qed.

(** The quiz example: D has the largest price of 2013-07-09. *)
Lemma date_top_industries_best_witness :
  "Real Estate" ∈ ({[ "Utilities"; "Real Estate" ]} : gset string).
Proof.
  apply (date_top_industries_best quiz_prices quiz_sector "2013-07-09" 3 quiz_row
           {[ "Utilities"; "Real Estate" ]} 3 "D" (Qc_of_Z 7) "Real Estate").
  - vm_compute. reflexivity.
  - vm_compute. reflexivity.
  - lia.
  - reflexivity.
  - intros j tj pj Hj.
    do 5 (destruct j as [|j]; [injection Hj as <- <-;
            first [ left; by vm_compute | right; split; [reflexivity | lia] ] |]).
    done.
  - vm_compute. reflexivity.
Defined.

(** X7: the returned set is empty exactly when [top_n] is 0 or the
    selected row has no entries. *)
Theorem date_top_industries_empty prices sector date top_n row S :
  df_loc prices date = Ok (SelRow row) →
  date_top_industries prices sector date top_n = Ok S →
  S = ∅ ↔ top_n = 0 ∨ row = [].
Proof.
  intros Hloc HS.
  apply date_top_industries_Ok_inv in HS as (row' & secs & Hloc' & Hsecs & ->).
  rewrite Hloc in Hloc'. injection Hloc' as <-.
  destruct (series_loc_Ok _ _ _ Hsecs) as [Hlen _].
  destruct (nlargest_is_top_n row top_n) as (_ & Htop & Hlt & _).
  assert (length secs = top_n `min` length row) as Hsize.
  { rewrite Hlen. unfold index, nlargest, iloc. rewrite length_fmap.
    rewrite <- Htop. clear Htop Hsecs Hlen.
    induction (take top_n (argsort_desc row.*2)) as [|k ks IH]; [done|].
    csimpl. destruct (lookup_lt_is_Some_2 row k) as [x ->]; [apply Hlt; by left|].
    csimpl. f_equal. apply IH. intros j Hj. apply Hlt. by right. }
  unfold to_set. split.
  - intros Hempty.
    destruct secs as [|[l v] secs].
    + simpl in Hsize. destruct row; [by right|]. left. simpl in Hsize. lia.
    + exfalso. rewrite fmap_cons, list_to_set_cons in Hempty.
      assert (v ∈ (∅ : gset string)) as Hv.
      { rewrite <- Hempty. apply elem_of_union. left. by apply elem_of_singleton. }
      by apply not_elem_of_empty in Hv.
  - intros Hor. assert (length secs = 0) as Hnil.
    { destruct Hor as [-> | ->]; simpl in Hsize; lia. }
    destruct secs; [|done]. by rewrite fmap_nil, list_to_set_nil.
Qed.

(** The quiz example with [top_n = 0]. *)
Lemma date_top_industries_empty_witness :
  (∅ : gset string) = ∅ ↔ 0 = 0 ∨ quiz_row = [].
Proof.
  apply (date_top_industries_empty quiz_prices quiz_sector "2013-07-09" 0 quiz_row ∅).
  - vm_compute. reflexivity.
  - vm_compute. reflexivity.
Defined.

(** ** Top and bottom performers *)

Lemma iloc_values (row : Series Qc) (l : list (nat * Qc)) :
  Forall (λ iv, row.*2 !! iv.1 = Some iv.2) l →
  (iloc row l.*1).*2 = l.*2.
Proof.
  unfold iloc. induction l as [|[i v] l IH]; [done|].
  intros [Hi Hl]%Forall_cons. csimpl. simpl in Hi.
  rewrite list_lookup_fmap in Hi.
  destruct (row !! i) as [[t p]|]; simplify_eq/=. by rewrite IH.
Qed.

Lemma nlargest_sorted (n : nat) (row : Series Qc) :
  StronglySorted (λ p q, (q ≤ p)%Qc) (nlargest n row).*2.
Proof.
  unfold nlargest, argsort_desc.
  destruct (sort_indexed row.*2 0) as [Hs Hp].
  set (s := foldr insert_desc [] (zip (seq 0 (length row.*2)) row.*2)) in *.
  rewrite <- fmap_take, iloc_values.
  - apply (StronglySorted_fmap snd before); [intros x y; apply before_le|].
    rewrite <- (take_drop n s) in Hs. by apply StronglySorted_app_1_l in Hs.
  - apply Forall_forall. intros [i v] Hin. simpl.
    assert ((i, v) ∈ s) as Hin'.
    { rewrite <- (take_drop n s). apply elem_of_app. by left. }
    rewrite Hp in Hin'. apply elem_of_zip_seq in Hin' as [_ Hv].
    by replace (i - 0) with i in Hv by lia.
Qed.

Lemma length_iloc (row : Series Qc) (top : list nat) :
  (∀ i, i ∈ top → i < length row) → length (iloc row top) = length top.
Proof.
  unfold iloc. induction top as [|k ks IH]; [done|]. intros Hlt.
  csimpl. destruct (lookup_lt_is_Some_2 row k) as [x ->]; [apply Hlt; by left|].
  csimpl. f_equal. apply IH. intros j Hj. apply Hlt. by right.
Qed.

(** X8: the top performers cell, [close_month.loc[month].nlargest(n)]:
    on a month that selects one row it returns the entries at the top
    [n] positions, [min n (number of tickers)] of them, the largest
    price first. *)
Theorem top_performing_spec close_month month n row :
  df_loc close_month month = Ok (SelRow row) →
  ∃ top,
    is_top_n row n top ∧
    top_performing close_month month n = Ok (iloc row top) ∧
    length (iloc row top) = n `min` length row ∧
    StronglySorted (λ p q, (q ≤ p)%Qc) (iloc row top).*2.
Proof.
  intros Hloc. exists (take n (argsort_desc row.*2)).
  pose proof (nlargest_is_top_n row n) as Htop.
  split_and!.
  - done.
  - unfold top_performing. by rewrite Hloc.
  - destruct Htop as (_ & Hlen & Hlt & _). by rewrite length_iloc.
  - apply nlargest_sorted.
Qed.

(** The two top tickers of the quiz row. *)
Lemma top_performing_spec_witness :
  ∃ top,
    is_top_n quiz_row 2 top ∧
    top_performing quiz_prices "2013-07-09" 2 = Ok (iloc quiz_row top) ∧
    length (iloc quiz_row top) = 2 `min` length quiz_row ∧
    StronglySorted (λ p q, (q ≤ p)%Qc) (iloc quiz_row top).*2.
Proof.
  apply (top_performing_spec quiz_prices "2013-07-09" 2 quiz_row).
  vm_compute. reflexivity.
Defined.











(** The outputs the notebook shows for its three cells. *)
Example top_performing_notebook :
  top_performing (df_map Qc_of_Z close_month) month 2
  = Ok [("E", Qc_of_Z 79); ("H", Qc_of_Z 59)].
Proof. vm_compute. reflexivity. Qed.

Example bottom_performing_notebook :
  bottom_flipped close_month month 2 = Ok [("A", -1); ("F", -2)]%Z ∧
  bottom_performing close_month month 2 = Ok [("A", 1); ("F", 2)]%Z.
Proof. split; vm_compute; reflexivity. Qed.

(** The least [int64] is its own sign flip: it is taken for the smallest
    flipped price, so the cell passes it over. *)
Example bottom_performing_wraps :
  bottom_performing (mkDataFrame [month] ["A"; "B"] [[- 2 ^ 63; 1]%Z]) month 1
  = Ok [("B", 1%Z)].
Proof. vm_compute. reflexivity. Qed.

(** ** The array cells of dtype.ipynb *)

Local Open Scope Z_scope.

Lemma quot_same_ratio (n d a b : Z) :
  0 < d → 0 < b → n * b = a * d → n `quot` d = a `quot` b.
Proof.
  intros Hd Hb Heq.
  rewrite <- (Z.quot_mul_cancel_r n d b) by lia.
  rewrite Heq, (Z.mul_comm d b).
  apply Z.quot_mul_cancel_r; lia.
Qed.

Lemma halved_ratio (x : Z) :
  Qnum (Qc_of_Z x / Qc_of_Z 2)%Qc * 2 = x * Zpos (Qden (Qc_of_Z x / Qc_of_Z 2)%Qc).
Proof.
  assert ((Qc_of_Z x / Qc_of_Z 2)%Qc == x # 2)%Q as Heq.
  { unfold Qcdiv, Qcmult, Qcinv, Q2Qc; simpl this.
    rewrite !Qred_correct. unfold Qeq; simpl. rewrite Pos2Z.inj_mul. lia. }
  exact Heq.
Qed.

(** X10: [int_arr] halves rounding toward zero: every entry is the
    quotient of the [array] entry by 2 with the sign of the entry and
    the magnitude rounded down.  Entries are within the range in which
    the float division is exact. *)
Theorem int_arr_truncates (array : list Z) :
  Forall (λ x, Z.abs x ≤ 2 ^ 53) array →
  int_arr array = (λ x, x `quot` 2) <$> array ∧
  int_arr array = (λ x, Z.sgn x * (Z.abs x `div` 2)) <$> array.
Proof.
  intros _.
  assert (int_arr array = (λ x, x `quot` 2) <$> array) as Heq.
  { unfold int_arr, float_arr, Numpy.astype_int64, Numpy.true_divide.
    rewrite <- list_fmap_compose. apply list_fmap_ext. intros _ x _; simpl.
    apply quot_same_ratio; [lia | lia | apply halved_ratio]. }
  split; [done|]. rewrite Heq. apply list_fmap_ext. intros _ x _; simpl.
  rewrite Z.quot_div by lia.
  change (Z.sgn 2) with 1. change (Z.abs 2) with 2. ring.
Qed.

(** The notebook's [np.arange(10)]. *)
Lemma int_arr_truncates_witness :
  int_arr (Numpy.arange 10) = (λ x, x `quot` 2)%Z <$> Numpy.arange 10 ∧
  int_arr (Numpy.arange 10) = (λ x, Z.sgn x * (Z.abs x `div` 2))%Z <$> Numpy.arange 10.
Proof.
  apply (int_arr_truncates (Numpy.arange 10)).
  apply (bool_decide_unpack _). vm_compute. exact I.
Defined.

(** X11: the worked example holds 4 shares where the price is above 4,
    1 share where it is above 2 and at most 4, and none elsewhere; no
    other position occurs. *)
Theorem long_pos_values (prices : list Z) :
  long_pos prices
  = (λ p, if decide (4 < p) then 4 else if decide (2 < p) then 1 else 0) <$> prices ∧
  Forall (λ v, v = 0 ∨ v = 1 ∨ v = 4) (long_pos prices).
Proof.
  assert (long_pos prices
          = (λ p, if decide (4 < p) then 4 else if decide (2 < p) then 1 else 0) <$> prices)
    as Heq.
  { unfold long_pos, Numpy.add, Numpy.rmul, Numpy.astype_int, Numpy.greater.
    rewrite <- !list_fmap_compose, zip_with_fmap_same.
    apply list_fmap_ext. intros _ p _; simpl.
    repeat case_bool_decide; repeat case_decide; try lia; by vm_compute. }
  split; [done|]. rewrite Heq. apply Forall_fmap, Forall_forall. intros p _; simpl.
  repeat case_decide; auto.
Qed.

Local Open Scope nat_scope.

(** ** State dicts and checkpoints *)

Lemma load_state_dict_Ok_inv (model loaded : Module) (sd : gmap string Tensor) :
  load_state_dict model sd = Ok loaded →
  tshape <$> parameters model = tshape <$> sd ∧
  loaded = mkModule (hidden_layers model) (output model) sd.
Proof.
  intros Hload. pose proof Hload as Hloaded.
  unfold load_state_dict in Hloaded. case_decide as Hok; [|done].
  destruct Hok as (Hmiss & Hunexp & Hmism). clear Hloaded.
  apply elements_empty_inv, leibniz_equiv in Hmiss, Hunexp, Hmism.
  assert (tshape <$> parameters model = tshape <$> sd) as Hsh.
  { apply map_eq; intros name. rewrite !lookup_fmap.
    destruct (parameters model !! name) as [p|] eqn:Hp, (sd !! name) as [t|] eqn:Ht; simpl.
    - f_equal. destruct (decide (tshape p = tshape t)) as [|Hne]; [done|]. exfalso.
      assert (name ∈ dom (filter (λ kv, size_mismatch model kv.1 kv.2 = true) sd)) as Hin.
      { apply elem_of_dom. exists t. apply map_lookup_filter_Some. split; [done|]. simpl.
        unfold size_mismatch. rewrite Hp. by apply bool_decide_eq_true. }
      rewrite Hmism in Hin. by apply not_elem_of_empty in Hin.
    - exfalso. assert (name ∈ dom (parameters model) ∖ dom sd) as Hin.
      { apply elem_of_difference. split; [by apply elem_of_dom_2 in Hp|].
        by apply not_elem_of_dom. }
      rewrite Hmiss in Hin. by apply not_elem_of_empty in Hin.
    - exfalso. assert (name ∈ dom sd ∖ dom (parameters model)) as Hin.
      { apply elem_of_difference. split; [by apply elem_of_dom_2 in Ht|].
        by apply not_elem_of_dom. }
      rewrite Hunexp in Hin. by apply not_elem_of_empty in Hin.
    - done. }
  split; [done|]. rewrite (load_state_dict_Ok model sd Hsh) in Hload.
  by injection Hload as <-.
Qed.

Lemma torch_load_Ok path (fs : files) o : torch_load path fs = Ok o → fs !! path = Some o.
Proof. unfold torch_load. destruct (fs !! path); simpl; congruence. Qed.

(** X12: the first save and load of the notebook: a state dict saved
    with [torch.save] and loaded with [torch.load] into a model of the
    same architecture gives back the model it was taken from, whatever
    values the receiving model had. *)
Theorem state_dict_round_trip (model model' : Module) path fs :
  same_architecture model' model →
  load_saved_state_dict model' path (torch_save (PStateDict (state_dict model)) path fs)
  = Ok model.
Proof.
  intros (Hhid & Hout & Hsh).
  unfold load_saved_state_dict, torch_load, torch_save.
  rewrite lookup_insert_eq; csimpl.
  rewrite load_state_dict_Ok by done.
  destruct model as [hl out ps]; simpl in *. by subst.
Qed.

(** The notebook's model, with arbitrary parameter values. *)
Lemma state_dict_round_trip_witness :
  load_saved_state_dict (Network (λ _ _, []) 784 10 [512; 256; 128]) "checkpoint.pth"
    (torch_save (PStateDict (state_dict (Network (λ _ _, [1%Qc]) 784 10 [512; 256; 128])))
       "checkpoint.pth" ∅)
  = Ok (Network (λ _ _, [1%Qc]) 784 10 [512; 256; 128]).
Proof.
  apply (state_dict_round_trip (Network (λ _ _, [1%Qc]) 784 10 [512; 256; 128])
           (Network (λ _ _, []) 784 10 [512; 256; 128])).
  apply Network_same_architecture.
Defined.

(** X13: when loading a saved state dict succeeds, the file held a
    state dict, the parameters are exactly that state dict, and the
    model keeps its layers and the dimensions of its parameters. *)
Theorem load_saved_state_dict_sound (model loaded : Module) path fs :
  load_saved_state_dict model path fs = Ok loaded →
  ∃ sd, fs !! path = Some (PStateDict sd) ∧
        same_architecture loaded model ∧
        state_dict loaded = sd.
Proof.
  unfold load_saved_state_dict.
  destruct (torch_load path fs) as [[sd|c]|e] eqn:Hfile; csimpl; [|done..].
  intros [Hsh ->]%load_state_dict_Ok_inv.
  exists sd. split_and!; [by apply torch_load_Ok | | done].
  split_and!; simpl; done.
Qed.

(** A network without hidden layers. *)
Lemma load_saved_state_dict_sound_witness :
  ∃ sd,
    (torch_save (PStateDict (state_dict (Network (λ _ _, [1%Qc]) 3 2 [])))
       "checkpoint.pth" ∅ : files) !! "checkpoint.pth" = Some (PStateDict sd) ∧
    same_architecture (Network (λ _ _, [1%Qc]) 3 2 []) (Network (λ _ _, []) 3 2 []) ∧
    state_dict (Network (λ _ _, [1%Qc]) 3 2 []) = sd.
Proof.
  apply (load_saved_state_dict_sound (Network (λ _ _, []) 3 2 [])
           (Network (λ _ _, [1%Qc]) 3 2 []) "checkpoint.pth").
  unfold load_saved_state_dict, torch_load, torch_save.
  rewrite lookup_insert_eq. csimpl. rewrite load_state_dict_Ok; [done|].
  apply (Network_shapes (λ _ _, []) (λ _ _, [1%Qc])).
Defined.

(** X14: when [load_checkpoint] returns a model, the file held a
    checkpoint mapping, the model is the network of the recorded sizes
    with the recorded state dict as its parameters, and, for the sizes
    784 and 10 the checkpoint cell writes, rebuilding the checkpoint from
    the model gives the file's content back. *)
Theorem load_checkpoint_sound init path fs (model : Module) :
  load_checkpoint init path fs = Ok model →
  ∃ c, fs !! path = Some (PCheckpoint c) ∧
       same_architecture model
         (Network init (ck_input_size c) (ck_output_size c) (ck_hidden_layers c)) ∧
       state_dict model = ck_state_dict c ∧
       (ck_input_size c = 784 → ck_output_size c = 10 → checkpoint model = c).
Proof.
  unfold load_checkpoint.
  destruct (torch_load path fs) as [[sd|c]|e] eqn:Hfile; csimpl; [done| |done].
  intros [Hsh ->]%load_state_dict_Ok_inv.
  exists c. split_and!; [by apply torch_load_Ok | | done |].
  - split_and!; simpl; done.
  - intros Hin Hout.
    pose proof (Network_hidden_widths init (ck_input_size c) (ck_output_size c)
                  (ck_hidden_layers c)) as Hw.
    remember (Network init (ck_input_size c) (ck_output_size c) (ck_hidden_layers c))
      as net.
    unfold checkpoint, state_dict; simpl. rewrite Hw.
    destruct c; simpl in *. by subst.
Qed.

(** A network with one hidden layer. *)
Lemma load_checkpoint_sound_witness :
  ∃ c,
    (torch_save (PCheckpoint (checkpoint (Network (λ _ _, [1%Qc]) 784 10 [4])))
       "checkpoint.pth" ∅ : files) !! "checkpoint.pth" = Some (PCheckpoint c) ∧
    same_architecture (Network (λ _ _, [1%Qc]) 784 10 [4])
      (Network (λ _ _, []) (ck_input_size c) (ck_output_size c) (ck_hidden_layers c)) ∧
    state_dict (Network (λ _ _, [1%Qc]) 784 10 [4]) = ck_state_dict c ∧
    (ck_input_size c = 784 → ck_output_size c = 10 →
     checkpoint (Network (λ _ _, [1%Qc]) 784 10 [4]) = c).
Proof.
  apply (load_checkpoint_sound (λ _ _, []) "checkpoint.pth").
  apply (load_checkpoint_round_trip (λ _ _, []) (λ _ _, []) 784 10 [4]).
  apply Network_same_architecture.
Defined.

(** ** What a training pass does to the parameters *)

Lemma sgd_update_like lr (p g : Tensor) :
  tensor_like g p → tensor_like (sgd_update lr p g) p.
Proof.
  intros [_ Hlen]. split; simpl; [done|]. rewrite length_zip_with. lia.
Qed.

Section training_state.

Context {sample activations : Type}.
Variable forward : gmap string Tensor → list sample → activations.
Variable criterion : activations → list sample → Qc.
Variable autograd : gmap string Tensor → list sample → gmap string Tensor.

Hypothesis autograd_gradient : ∀ ps b, gradient_for ps (autograd ps b).

(** The state a pass leaves: the gradient of its own batch, taken at the
    parameters it started from, and every parameter moved against it. *)
Lemma training_pass_state lr running_loss (batch : list sample)
    (st : trainer (sample := sample)) :
  grads_ok st →
  ∃ st',
    training_pass forward criterion autograd lr running_loss batch st
    = (st', Ok (running_loss + criterion (forward (params st) batch) batch)%Qc) ∧
    grads st' = autograd (params st) batch ∧
    (∀ name, params st' !! name
             = p ← params st !! name;
               g ← autograd (params st) batch !! name;
               Some (sgd_update lr p g)) ∧
    printed st' = printed st.
Proof.
  intros Hok. eexists. split; [reflexivity|]. simpl.
  assert (accumulate (zeros_like <$> grads st) (autograd (params st) batch)
          = autograd (params st) batch) as Hg.
  { apply map_eq; intros name. by apply reset_then_backward. }
  rewrite Hg. split_and!; [done| |done].
  intros name. rewrite lookup_merge.
  destruct (autograd_gradient (params st) batch) as [Hdom _].
  destruct (params st !! name) as [p|] eqn:Hp; simpl.
  - assert (is_Some (autograd (params st) batch !! name)) as [g ->]; [|done].
    apply elem_of_dom. rewrite Hdom. by apply elem_of_dom_2 in Hp.
  - assert (autograd (params st) batch !! name = None) as ->; [|done].
    apply not_elem_of_dom. rewrite Hdom. by apply not_elem_of_dom.
Qed.

Lemma training_pass_invariant lr running_loss (batch : list sample)
    (st : trainer (sample := sample)) :
  grads_ok st →
  let st' := (training_pass forward criterion autograd lr running_loss batch st).1 in
  grads_ok st' ∧ tshape <$> params st' = tshape <$> params st.
Proof.
  intros Hok.
  destruct (training_pass_state lr running_loss batch st Hok)
    as (st' & Hrun & Hg & Hp & _).
  rewrite Hrun; simpl.
  destruct (autograd_gradient (params st) batch) as [Hdom Hlike]. split.
  - intros name t Ht. rewrite Hg in Ht. rewrite Hp.
    assert (is_Some (params st !! name)) as [p Hpn].
    { apply elem_of_dom. rewrite <- Hdom. by apply elem_of_dom_2 in Ht. }
    rewrite Hpn, Ht; simpl. eexists. split; [done|].
    pose proof (Hlike name t p Ht Hpn) as Htp.
    pose proof (sgd_update_like lr p t Htp) as [Hs Hl].
    destruct Htp as [Hs' Hl']. split; congruence.
  - apply map_eq; intros name. rewrite !lookup_fmap, Hp.
    destruct (params st !! name) as [p|] eqn:Hpn; simpl; [|done].
    assert (is_Some (autograd (params st) batch !! name)) as [g ->]; [|done].
    apply elem_of_dom. rewrite Hdom. by apply elem_of_dom_2 in Hpn.
Qed.

Lemma inner_loop_invariant lr (batches : list (list sample)) running_loss
    (st : trainer (sample := sample)) :
  grads_ok st →
  let st' := (for_each (training_pass forward criterion autograd lr) batches
                running_loss st).1 in
  grads_ok st' ∧ tshape <$> params st' = tshape <$> params st.
Proof.
  revert running_loss st. induction batches as [|batch batches IH]; intros running_loss st Hok.
  - done.
  - destruct (training_pass_state lr running_loss batch st Hok)
      as (st1 & Hrun & _).
    destruct (training_pass_invariant lr running_loss batch st Hok) as [Hok1 Hsh1].
    rewrite Hrun in Hok1, Hsh1; simpl in Hok1, Hsh1.
    simpl. rewrite (eff_bind_Ok _ _ _ _ _ Hrun).
    destruct (IH (running_loss + criterion (forward (params st) batch) batch)%Qc st1 Hok1)
      as [Hok2 Hsh2].
    split; [done|]. by rewrite Hsh2.
Qed.

Lemma epoch_invariant lr (trainloader : nat → list (list sample)) e
    (st : trainer (sample := sample)) :
  grads_ok st →
  let st' := (epoch forward criterion autograd lr trainloader () e st).1 in
  grads_ok st' ∧ tshape <$> params st' = tshape <$> params st.
Proof.
  intros Hok.
  destruct (inner_loop_run forward criterion autograd lr (trainloader e) 0%Qc st)
    as (st1 & total & Hrun & _).
  pose proof (inner_loop_invariant lr (trainloader e) 0%Qc st Hok) as Hinv.
  rewrite Hrun in Hinv; simpl in Hinv.
  unfold epoch. rewrite (eff_bind_Ok _ _ _ _ _ Hrun).
  unfold print_loss. by case_decide.
Qed.

Lemma epochs_invariant lr (trainloader : nat → list (list sample)) (es : list nat)
    (st : trainer (sample := sample)) :
  grads_ok st →
  let st' := (for_each (epoch forward criterion autograd lr trainloader) es () st).1 in
  grads_ok st' ∧ tshape <$> params st' = tshape <$> params st.
Proof.
  revert st. induction es as [|e es IH]; intros st Hok; [done|].
  pose proof (epoch_invariant lr trainloader e st Hok) as Hinv.
  simpl. unfold mbind, eff_bind.
  destruct (epoch forward criterion autograd lr trainloader () e st) as [st1 [[]|err]];
    simpl in Hinv; [|done].
  destruct Hinv as [Hok1 Hsh1].
  destruct (IH st1 Hok1) as [Hok2 Hsh2]. split; [done|]. by rewrite Hsh2.
Qed.

(** X15: one pass of the loop body returns the running loss plus the
    loss of its batch and leaves every parameter moved against the
    gradient of that batch alone, taken at the parameters the pass
    started from: what the gradients held before does not enter. *)
Theorem training_pass_update lr running_loss (batch : list sample)
    (st : trainer (sample := sample)) :
  grads_ok st →
  ∃ st',
    training_pass forward criterion autograd lr running_loss batch st
    = (st', Ok (running_loss + criterion (forward (params st) batch) batch)%Qc) ∧
    grads st' = autograd (params st) batch ∧
    dom (params st') = dom (params st) ∧
    ∀ name p, params st !! name = Some p →
      ∃ g, autograd (params st) batch !! name = Some g ∧
           params st' !! name = Some (sgd_update lr p g).
Proof.
  intros Hok.
  destruct (training_pass_state lr running_loss batch st Hok)
    as (st' & Hrun & Hg & Hp & _).
  exists st'. split_and!; [done | done | |].
  - destruct (training_pass_invariant lr running_loss batch st Hok) as [_ Hsh].
    rewrite Hrun in Hsh; simpl in Hsh.
    apply (f_equal dom) in Hsh. by rewrite !dom_fmap_L in Hsh.
  - intros name p Hpn. rewrite Hp, Hpn; simpl.
    destruct (autograd_gradient (params st) batch) as [Hdom _].
    assert (is_Some (autograd (params st) batch !! name)) as [g Hgn].
    { apply elem_of_dom. rewrite Hdom. by apply elem_of_dom_2 in Hpn. }
    exists g. by rewrite Hgn.
Qed.

(** X16: training changes values only: however the loop ends, the
    model has the same parameter names with the same dimensions, and
    every gradient belongs to a parameter and has its dimensions. *)
Theorem train_keeps_shapes (trainloader : nat → list (list sample)) (epochs : nat)
    (st : trainer (sample := sample)) :
  grads_ok st →
  let st' := (train forward criterion autograd trainloader epochs st).1 in
  grads_ok st' ∧
  tshape <$> params st' = tshape <$> params st ∧
  dom (params st') = dom (params st).
Proof.
  intros Hok. unfold train.
  pose proof (epochs_invariant lr_solution trainloader (seq 0 epochs) st Hok) as Hinv.
  cbv zeta in Hinv |- *. destruct Hinv as [Hok' Hsh].
  split_and!; [done | done |].
  apply (f_equal dom) in Hsh. by rewrite !dom_fmap_L in Hsh.
Qed.

End training_state.

Lemma toy_trainer_grads_ok : grads_ok toy_trainer.
Proof.
  intros name t Ht. unfold toy_trainer in *; simpl in *.
  apply lookup_singleton_Some in Ht as [<- <-].
  eexists. split; [apply lookup_singleton_eq|]. split; reflexivity.
Qed.

(** The first mini-batch of the small instance. *)
Lemma training_pass_update_witness :
  ∃ st',
    training_pass (λ _ batch, batch) (λ _ _, 1%Qc) toy_autograd lr_solution 0%Qc [1; 2]
      toy_trainer
    = (st', Ok (0 + 1)%Qc) ∧
    grads st' = toy_autograd (params toy_trainer) [1; 2] ∧
    dom (params st') = dom (params toy_trainer) ∧
    ∀ name p, params toy_trainer !! name = Some p →
      ∃ g, toy_autograd (params toy_trainer) [1; 2] !! name = Some g ∧
           params st' !! name = Some (sgd_update lr_solution p g).
Proof.
  apply (training_pass_update (λ _ batch, batch) (λ _ _, 1%Qc) toy_autograd
           toy_autograd_gradient lr_solution 0%Qc [1; 2] toy_trainer).
  apply toy_trainer_grads_ok.
Defined.

(** Two epochs of the small instance. *)
Lemma train_keeps_shapes_witness :
  let st' := (train (λ _ batch, batch) (λ _ _, 1%Qc) toy_autograd toy_loader 2 toy_trainer).1 in
  grads_ok st' ∧
  tshape <$> params st' = tshape <$> params toy_trainer ∧
  dom (params st') = dom (params toy_trainer).
Proof.
  apply (train_keeps_shapes (λ _ batch, batch) (λ _ _, 1%Qc) toy_autograd
           toy_autograd_gradient toy_loader 2 toy_trainer).
  apply toy_trainer_grads_ok.
Defined.

Section training_output.

Context {sample activations : Type}.
Variable forward : gmap string Tensor → list sample → activations.
Variable criterion : activations → list sample → Qc.
Variable autograd : gmap string Tensor → list sample → gmap string Tensor.

Lemma epoch_prints lr (trainloader : nat → list (list sample)) e
    (st : trainer (sample := sample)) :
  trainloader e ≠ [] →
  ∃ st',
    epoch forward criterion autograd lr trainloader () e st = (st', Ok ()) ∧
    calls st' = calls st ++ (trainloader e ≫= pass_calls) ∧
    ∃ loss, printed st' = printed st ++ [loss].
Proof.
  intros Hne.
  destruct (inner_loop_run forward criterion autograd lr (trainloader e) 0%Qc st)
    as (st1 & total & Hrun & Hc & Hp).
  unfold epoch. rewrite (eff_bind_Ok _ _ _ _ _ Hrun).
  unfold print_loss. rewrite decide_False.
  - eexists. split; [reflexivity|]. simpl. split; [done|].
    rewrite Hp. by eexists.
  - by destruct (trainloader e).
Qed.

Lemma epoch_empty lr (trainloader : nat → list (list sample)) e
    (st : trainer (sample := sample)) :
  trainloader e = [] →
  epoch forward criterion autograd lr trainloader () e st = (st, Raise ZeroDivisionError).
Proof. intros He. unfold epoch. rewrite He. reflexivity. Qed.

Lemma epochs_until_empty lr (trainloader : nat → list (list sample)) first k rest
    (st : trainer (sample := sample)) :
  (∀ e, first ≤ e < first + k → trainloader e ≠ []) →
  (rest = [] ∨ ∃ rest', rest = (first + k) :: rest' ∧ trainloader (first + k) = []) →
  ∃ st',
    for_each (epoch forward criterion autograd lr trainloader) (seq first k ++ rest) () st
    = (st', if decide (rest = []) then Ok () else Raise ZeroDivisionError) ∧
    calls st' = calls st ++ (seq first k ≫= λ e, trainloader e ≫= pass_calls) ∧
    ∃ losses, printed st' = printed st ++ losses ∧ length losses = k.
Proof.
  intros Hne Hrest. revert first st Hne Hrest. induction k as [|k IH]; intros first st Hne Hrest.
  - simpl. destruct Hrest as [-> | (rest' & -> & Hempty)].
    + exists st. rewrite decide_True by done. split_and!; [done| |].
      * csimpl. by rewrite (right_id_L [] (++)).
      * exists []. by rewrite (right_id_L [] (++)).
    + exists st. rewrite decide_False by done.
      rewrite Nat.add_0_r in Hempty. rewrite Nat.add_0_r. split_and!.
      * simpl.
        by rewrite (eff_bind_Raise _ _ _ _ _ (epoch_empty lr trainloader first st Hempty)).
      * by rewrite (right_id_L [] (++)).
      * exists []. by rewrite (right_id_L [] (++)).
  - destruct (epoch_prints lr trainloader first st) as (st1 & Hrun & Hc1 & loss & Hp1).
    { apply Hne. lia. }
    destruct (IH (S first) st1) as (st2 & Hrest' & Hc2 & losses & Hp2 & Hlen).
    { intros e He. apply Hne. lia. }
    { destruct Hrest as [-> | (rest' & -> & Hempty)]; [by left|right].
      exists rest'. by rewrite <- Nat.add_succ_comm in *. }
    exists st2. split_and!.
    + simpl. by rewrite (eff_bind_Ok _ _ _ _ _ Hrun).
    + rewrite Hc2, Hc1. csimpl. by rewrite <- !(assoc_L (++)).
    + exists (loss :: losses). split; [|simpl; by rewrite Hlen].
      by rewrite Hp2, Hp1, <- (assoc_L (++)).
Qed.

(** X17: when the loader yields a mini-batch in each of the epochs, the
    loop ends normally and prints one loss per epoch and nothing
    else. *)
Theorem train_prints_each_epoch (trainloader : nat → list (list sample)) (epochs : nat)
    (st : trainer (sample := sample)) :
  (∀ e, e < epochs → trainloader e ≠ []) →
  ∃ st',
    train forward criterion autograd trainloader epochs st = (st', Ok ()) ∧
    ∃ losses, printed st' = printed st ++ losses ∧ length losses = epochs.
Proof.
  intros Hne.
  destruct (epochs_until_empty lr_solution trainloader 0 epochs [] st) as (st' & Hrun & _ & Hp).
  { intros e He. apply Hne. lia. }
  { by left. }
  rewrite (right_id_L [] (++)) in Hrun. by exists st'.
Qed.

(** X18: a loader that yields nothing in epoch [k] stops the loop there
    with [ZeroDivisionError], from the mean over zero batches: the
    epochs before [k] are complete, with their calls made and their
    losses printed, and nothing of a later epoch runs. *)
Theorem train_empty_loader (trainloader : nat → list (list sample)) (epochs k : nat)
    (st : trainer (sample := sample)) :
  k < epochs →
  (∀ e, e < k → trainloader e ≠ []) →
  trainloader k = [] →
  ∃ st',
    train forward criterion autograd trainloader epochs st = (st', Raise ZeroDivisionError) ∧
    calls st' = calls st ++ (seq 0 k ≫= λ e, trainloader e ≫= pass_calls) ∧
    ∃ losses, printed st' = printed st ++ losses ∧ length losses = k.
Proof.
  intros Hk Hne Hempty.
  destruct (epochs_until_empty lr_solution trainloader 0 k (seq k (epochs - k)) st)
    as (st' & Hrun & Hc & Hp).
  { intros e He. apply Hne. lia. }
  { right. exists (seq (S k) (epochs - S k)). split; [|done].
    replace (epochs - k) with (S (epochs - S k)) by lia. done. }
  exists st'. split_and!; [|done..].
  unfold train. replace epochs with (k + (epochs - k)) at 1 by lia.
  rewrite seq_app. change (0 + k) with k. rewrite Hrun, decide_False; [done|].
  replace (epochs - k) with (S (epochs - S k)) by lia. done.
Qed.

End training_output.

Lemma toy_loader_nonempty e : toy_loader e ≠ [].
Proof. unfold toy_loader. by destruct (Nat.even e). Qed.

(** Two epochs of the small instance. *)
Lemma train_prints_each_epoch_witness :
  ∃ st',
    train (λ _ batch, batch) (λ _ _, 1%Qc) toy_autograd toy_loader 2 toy_trainer
    = (st', Ok ()) ∧
    ∃ losses, printed st' = printed toy_trainer ++ losses ∧ length losses = 2.
Proof.
  apply (train_prints_each_epoch (λ _ batch, batch) (λ _ _, 1%Qc) toy_autograd
           toy_loader 2 toy_trainer).
  intros e _. apply toy_loader_nonempty.
Defined.

(** A loader that is exhausted after its first pass. *)
Lemma train_empty_loader_witness :
  ∃ st',
    train (λ _ batch, batch) (λ _ _, 1%Qc) toy_autograd
      (λ e, if decide (e = 0) then [[1; 2]; [3]] else []) 5 toy_trainer
    = (st', Raise ZeroDivisionError) ∧
    calls st'
    = calls toy_trainer ++
      (seq 0 1 ≫= λ e, (if decide (e = 0) then [[1; 2]; [3]] else []) ≫= pass_calls) ∧
    ∃ losses, printed st' = printed toy_trainer ++ losses ∧ length losses = 1.
Proof.
  apply (train_empty_loader (λ _ batch, batch) (λ _ _, 1%Qc) toy_autograd
           (λ e, if decide (e = 0) then [[1; 2]; [3]] else []) 5 1 toy_trainer).
  - lia.
  - intros e He. rewrite decide_True by lia. done.
  - reflexivity.
Defined.

(** ** The order and the effect of the training loop *)

Section training_order.

Context {sample activations : Type}.
Variable forward : gmap string Tensor → list sample → activations.
Variable criterion : activations → list sample → Qc.
Variable autograd : gmap string Tensor → list sample → gmap string Tensor.

Lemma replay_app lr (cs1 cs2 : list (call (sample := sample))) pg :
  replay autograd lr (cs1 ++ cs2) pg = replay autograd lr cs2 (replay autograd lr cs1 pg).
Proof. apply foldl_app. Qed.

(** The state a pass leaves is what its five calls do, in their order. *)
Lemma training_pass_replay lr running_loss (batch : list sample)
    (st : trainer (sample := sample)) :
  ∃ st' loss,
    training_pass forward criterion autograd lr running_loss batch st = (st', Ok loss) ∧
    calls st' = calls st ++ pass_calls batch ∧
    (params st', grads st') = replay autograd lr (pass_calls batch) (params st, grads st).
Proof.
  eexists _, _. split; [reflexivity|]. simpl. split; [|reflexivity].
  by rewrite <- !(assoc_L (++)).
Qed.

Lemma inner_loop_replay lr (batches : list (list sample)) running_loss
    (st : trainer (sample := sample)) :
  ∃ st' total,
    for_each (training_pass forward criterion autograd lr) batches running_loss st
    = (st', Ok total) ∧
    calls st' = calls st ++ (batches ≫= pass_calls) ∧
    (params st', grads st')
    = replay autograd lr (batches ≫= pass_calls) (params st, grads st).
Proof.
  revert running_loss st. induction batches as [|batch batches IH]; intros running_loss st.
  - eexists _, _. split; [reflexivity|]. csimpl. by rewrite (right_id_L [] (++)).
  - destruct (training_pass_replay lr running_loss batch st) as (st1 & loss & Hrun & Hc1 & Hr1).
    destruct (IH loss st1) as (st2 & total & Hrest & Hc2 & Hr2).
    exists st2, total. split_and!.
    + simpl. by rewrite (eff_bind_Ok _ _ _ _ _ Hrun).
    + rewrite Hc2, Hc1. csimpl. by rewrite <- !(assoc_L (++)).
    + rewrite Hr2, Hr1.
      change ((batch :: batches) ≫= pass_calls)
        with (pass_calls batch ++ (batches ≫= pass_calls)).
      by rewrite replay_app.
Qed.

Lemma epoch_replay lr (trainloader : nat → list (list sample)) e
    (st : trainer (sample := sample)) :
  trainloader e ≠ [] →
  ∃ st',
    epoch forward criterion autograd lr trainloader () e st = (st', Ok ()) ∧
    calls st' = calls st ++ (trainloader e ≫= pass_calls) ∧
    (params st', grads st')
    = replay autograd lr (trainloader e ≫= pass_calls) (params st, grads st).
Proof.
  intros Hne.
  destruct (inner_loop_replay lr (trainloader e) 0%Qc st) as (st1 & total & Hrun & Hc & Hr).
  unfold epoch. rewrite (eff_bind_Ok _ _ _ _ _ Hrun).
  unfold print_loss. rewrite decide_False.
  - eexists. split; [reflexivity|]. done.
  - by destruct (trainloader e).
Qed.

Lemma epochs_replay lr (trainloader : nat → list (list sample)) (es : list nat)
    (st : trainer (sample := sample)) :
  (∀ e, trainloader e ≠ []) →
  ∃ st',
    for_each (epoch forward criterion autograd lr trainloader) es () st = (st', Ok ()) ∧
    calls st' = calls st ++ mjoin ((λ e, trainloader e ≫= pass_calls) <$> es) ∧
    (params st', grads st')
    = replay autograd lr (mjoin ((λ e, trainloader e ≫= pass_calls) <$> es))
        (params st, grads st).
Proof.
  intros Hne. revert st. induction es as [|e es IH]; intros st.
  - eexists. split; [reflexivity|]. csimpl. by rewrite (right_id_L [] (++)).
  - destruct (epoch_replay lr trainloader e st (Hne e)) as (st1 & Hrun & Hc1 & Hr1).
    destruct (IH st1) as (st2 & Hrest & Hc2 & Hr2).
    exists st2. split_and!.
    + simpl. by rewrite (eff_bind_Ok _ _ _ _ _ Hrun).
    + rewrite Hc2, Hc1. csimpl. by rewrite <- !(assoc_L (++)).
    + rewrite Hr2, Hr1.
      change (mjoin ((λ e, trainloader e ≫= pass_calls) <$> e :: es))
        with ((trainloader e ≫= pass_calls)
              ++ mjoin ((λ e, trainloader e ≫= pass_calls) <$> es)).
      by rewrite replay_app.
Qed.

(** With the gradients cleared first, a pass is one iteration of
    gradient descent on its own batch. *)
Lemma training_pass_descent lr running_loss (batch : list sample)
    (st : trainer (sample := sample)) :
  (∀ ps b, gradient_for ps (autograd ps b)) →
  grads_ok st →
  ∃ st',
    training_pass forward criterion autograd lr running_loss batch st
    = (st', Ok (sgd_iteration forward criterion autograd lr (params st, running_loss) batch).2) ∧
    params st' = (sgd_iteration forward criterion autograd lr (params st, running_loss) batch).1 ∧
    printed st' = printed st ∧
    grads_ok st'.
Proof.
  intros Hauto Hok.
  pose proof (training_pass_invariant forward criterion autograd Hauto lr running_loss batch
                st Hok) as [Hok' _].
  eexists. split; [reflexivity|]. split_and!; [|done|exact Hok'].
  simpl. unfold sgd_step. f_equal.
  apply map_eq; intros name. by apply reset_then_backward.
Qed.

Lemma inner_loop_descent lr (batches : list (list sample)) running_loss
    (st : trainer (sample := sample)) :
  (∀ ps b, gradient_for ps (autograd ps b)) →
  grads_ok st →
  ∃ st' total,
    for_each (training_pass forward criterion autograd lr) batches running_loss st
    = (st', Ok total) ∧
    (params st', total)
    = foldl (sgd_iteration forward criterion autograd lr) (params st, running_loss) batches ∧
    printed st' = printed st ∧
    grads_ok st'.
Proof.
  intros Hauto. revert running_loss st.
  induction batches as [|batch batches IH]; intros running_loss st Hok.
  - by eexists _, _.
  - destruct (training_pass_descent lr running_loss batch st Hauto Hok)
      as (st1 & Hrun & Hp1 & Hpr1 & Hok1).
    destruct (IH (sgd_iteration forward criterion autograd lr (params st, running_loss)
                    batch).2 st1 Hok1)
      as (st2 & total & Hrest & Hp2 & Hpr2 & Hok2).
    exists st2, total. split_and!.
    + simpl. rewrite (eff_bind_Ok _ _ _ _ _ Hrun). exact Hrest.
    + rewrite Hp2, Hp1. simpl. done.
    + congruence.
    + done.
Qed.

Lemma epoch_descent lr (trainloader : nat → list (list sample)) e
    (st : trainer (sample := sample)) :
  (∀ ps b, gradient_for ps (autograd ps b)) →
  grads_ok st →
  trainloader e ≠ [] →
  ∃ st',
    epoch forward criterion autograd lr trainloader () e st = (st', Ok ()) ∧
    (params st', printed st')
    = sgd_epoch forward criterion autograd lr (params st, printed st) (trainloader e) ∧
    grads_ok st'.
Proof.
  intros Hauto Hok Hne.
  destruct (inner_loop_descent lr (trainloader e) 0%Qc st Hauto Hok)
    as (st1 & total & Hrun & Hp & Hpr & Hok1).
  unfold epoch. rewrite (eff_bind_Ok _ _ _ _ _ Hrun).
  unfold print_loss. rewrite decide_False.
  - eexists. split; [reflexivity|]. simpl. split; [|done].
    unfold sgd_epoch. simpl. rewrite <- Hp, Hpr. done.
  - by destruct (trainloader e).
Qed.

Lemma epochs_descent lr (trainloader : nat → list (list sample)) (es : list nat)
    (st : trainer (sample := sample)) :
  (∀ ps b, gradient_for ps (autograd ps b)) →
  grads_ok st →
  (∀ e, trainloader e ≠ []) →
  ∃ st',
    for_each (epoch forward criterion autograd lr trainloader) es () st = (st', Ok ()) ∧
    (params st', printed st')
    = foldl (sgd_epoch forward criterion autograd lr) (params st, printed st)
        (trainloader <$> es).
Proof.
  intros Hauto Hok Hne. revert st Hok. induction es as [|e es IH]; intros st Hok.
  - by eexists.
  - destruct (epoch_descent lr trainloader e st Hauto Hok (Hne e)) as (st1 & Hrun & Hp1 & Hok1).
    destruct (IH st1 Hok1) as (st2 & Hrest & Hp2).
    exists st2. split.
    + simpl. by rewrite (eff_bind_Ok _ _ _ _ _ Hrun).
    + rewrite Hp2, Hp1. done.
Qed.

(** C7: the loop runs to its end.  Its library calls are, epoch after
    epoch and mini-batch after mini-batch in the loader's order, exactly
    clear gradients, forward, loss, backward, optimizer step, once per
    mini-batch, and the parameters and gradients it leaves are what
    these calls do in this order.  The log of the run splits into one
    part per epoch, in which the samples forwarded are the training set,
    each sample once.  When automatic differentiation returns one
    gradient per parameter, the parameters and the printed losses are
    those of mini-batch gradient descent: every iteration updates the
    parameters with the gradient of its own batch, every epoch reports
    its mean loss. *)
Theorem training_loop_order (trainloader : nat → list (list sample))
    (dataset : list sample) (epochs : nat) (st : trainer (sample := sample)) :
  (∀ e, trainloader e ≠ []) →
  (∀ e, mjoin (trainloader e) ≡ₚ dataset) →
  ∃ st',
    train forward criterion autograd trainloader epochs st = (st', Ok ()) ∧
    calls st'
    = calls st ++
      (seq 0 epochs ≫= λ e, trainloader e ≫= λ batch,
         [ZeroGrad; Forward batch; Criterion batch; Backward batch; Step]) ∧
    (params st', grads st')
    = replay autograd lr_solution (drop (length (calls st)) (calls st'))
        (params st, grads st) ∧
    (∃ logs,
       drop (length (calls st)) (calls st') = mjoin logs ∧
       length logs = epochs ∧
       ∀ e log, logs !! e = Some log →
         log = (trainloader e ≫= λ batch,
                  [ZeroGrad; Forward batch; Criterion batch; Backward batch; Step]) ∧
         forwarded log ≡ₚ dataset) ∧
    ((∀ ps b, gradient_for ps (autograd ps b)) →
     grads_ok st →
     (params st', printed st')
     = sgd_train forward criterion autograd lr_solution trainloader epochs
         (params st, printed st)).
Proof.
  intros Hne Hfull.
  destruct (epochs_replay lr_solution trainloader (seq 0 epochs) st Hne)
    as (st' & Hrun & Hcalls & Hreplay).
  set (logs := (λ e, trainloader e ≫= pass_calls) <$> seq 0 epochs) in *.
  assert (drop (length (calls st)) (calls st') = mjoin logs) as Hnew.
  { by rewrite Hcalls, drop_app_length. }
  exists st'. split_and!.
  - done.
  - rewrite Hcalls. f_equal. unfold logs. clear.
    induction (seq 0 epochs) as [|e es IH]; [done|]. csimpl. by rewrite IH.
  - by rewrite Hnew.
  - exists logs. split_and!; [done | by unfold logs; rewrite length_fmap, length_seq |].
    intros e log Hlog. unfold logs in Hlog.
    rewrite list_lookup_fmap in Hlog.
    destruct (seq 0 epochs !! e) as [e'|] eqn:He; [|done].
    apply lookup_seq in He as [-> _]. simpl in Hlog. injection Hlog as <-.
    split; [done|]. fold (pass_calls (sample := sample)).
    by rewrite forwarded_pass_calls.
  - intros Hauto Hok.
    destruct (epochs_descent lr_solution trainloader (seq 0 epochs) st Hauto Hok Hne)
      as (st'' & Hrun' & Hdescent).
    unfold train in Hrun. rewrite Hrun in Hrun'. by injection Hrun' as <-.
Qed.

End training_order.

(** Two epochs of the small instance. *)
Lemma training_loop_order_witness :
  ∃ st',
    train (λ _ batch, batch) (λ _ _, 0%Qc) toy_autograd toy_loader 2 toy_trainer
    = (st', Ok ()) ∧
    calls st'
    = calls toy_trainer ++
      (seq 0 2 ≫= λ e, toy_loader e ≫= λ batch,
         [ZeroGrad; Forward batch; Criterion batch; Backward batch; Step]) ∧
    (params st', grads st')
    = replay toy_autograd lr_solution (drop (length (calls toy_trainer)) (calls st'))
        (params toy_trainer, grads toy_trainer) ∧
    (∃ logs,
       drop (length (calls toy_trainer)) (calls st') = mjoin logs ∧
       length logs = 2 ∧
       ∀ e log, logs !! e = Some log →
         log = (toy_loader e ≫= λ batch,
                  [ZeroGrad; Forward batch; Criterion batch; Backward batch; Step]) ∧
         forwarded log ≡ₚ [1; 2; 3]) ∧
    (params st', printed st')
    = sgd_train (λ _ batch, batch) (λ _ _, 0%Qc) toy_autograd lr_solution toy_loader 2
        (params toy_trainer, printed toy_trainer).
Proof.
  destruct (training_loop_order (λ _ batch, batch) (λ _ _, 0%Qc) toy_autograd toy_loader
              [1; 2; 3] 2 toy_trainer)
    as (st' & Hrun & Hcalls & Hreplay & Hlogs & Hdescent).
  - apply toy_loader_nonempty.
  - intros e. unfold toy_loader. destruct (Nat.even e); simpl; [done|].
    apply (Permutation_cons_append [1; 2] 3).
  - exists st'. split_and!; [done..|].
    apply Hdescent; [apply toy_autograd_gradient | apply toy_trainer_grads_ok].
Defined.
